(** * Glassine definition-language front end

    A shallow embedding of [src/enum.js] (the closed-enumeration base class)
    and [src/parser.js] (the command-type registry, the [Command] value object
    and the definition [Parser]), followed by the properties the specification
    states about them.

    Conventions of the embedding.
    - A JavaScript string is the list of its UTF-16 code units
      ([charCodeAt] values), each a [Z].
    - A JavaScript number that only ever holds an integer (ordinals, line
      numbers, hashes: all far below 2^53) is a [Z].
    - A [throw new Error(msg)] is the result [Throw e], where [e] names the
      message template and carries the values interpolated into it.
    - Property names of classes and the keys of the two module-level
      registries of [enum.js] are Rocq [string]s. *)

From Stdlib Require Import ZArith Lia List Ascii String Bool.
From stdpp Require Import base option list gmap strings.
Import ListNotations.

Local Open Scope Z_scope.

(** ** JavaScript strings *)

Definition jsstring := list Z.

Definition SPACE : Z := 32.      (* ' '  *)
Definition NEWLINE : Z := 10.    (* '\n' *)
Definition TAB : Z := 9.         (* '\t' *)
Definition HASH : Z := 35.       (* '#'  *)
Definition BACKSLASH : Z := 92.  (* '\\' *)

Definition code (a : ascii) : Z := Z.of_N (N_of_ascii a).

(** [js s] reads [s] the way a JavaScript string literal is read: a backslash
    followed by [n] is a line feed, followed by [t] a tab, followed by any
    other character that character itself. *)
Fixpoint js (s : string) : jsstring :=
  match s with
  | EmptyString => []
  | String a s' =>
      if (code a =? BACKSLASH)%Z then
        match s' with
        | EmptyString => [BACKSLASH]
        | String b s'' =>
            (if (code b =? 110)%Z then NEWLINE
             else if (code b =? 116)%Z then TAB
             else code b) :: js s''
        end
      else code a :: js s'
  end.

(** [String.prototype.trim]: strips WhiteSpace and LineTerminator code points
    (ECMA-262, 22.1.3.32) from both ends. All of them lie in the basic
    multilingual plane, so they are single code units. *)
Definition is_trimmable (c : Z) : bool :=
  (c =? 9) || (c =? 10) || (c =? 11) || (c =? 12) || (c =? 13) || (c =? 32)
  || (c =? 160) || (c =? 5760) || ((8192 <=? c) && (c <=? 8202))
  || (c =? 8232) || (c =? 8233) || (c =? 8239) || (c =? 8287)
  || (c =? 12288) || (c =? 65279).

Fixpoint trim_start (s : jsstring) : jsstring :=
  match s with
  | c :: s' => if is_trimmable c then trim_start s' else s
  | [] => []
  end.

Definition trim (s : jsstring) : jsstring :=
  rev (trim_start (rev (trim_start s))).

(** ** 32-bit integer operators *)

(** [ToInt32] on an integral number (ECMA-262, 7.1.6): the number modulo
    2^32, less 2^32 when that is 2^31 or more. *)
Definition ToInt32 (z : Z) : Z :=
  let int32bit := z mod 2 ^ 32 in
  if 2 ^ 31 <=? int32bit then int32bit - 2 ^ 32 else int32bit.

(** [a << n]. *)
Definition js_shl (a n : Z) : Z := ToInt32 (Z.shiftl (ToInt32 a) (n mod 32)).

(** [a | b]. *)
Definition js_or (a b : Z) : Z := Z.lor (ToInt32 a) (ToInt32 b).

(** ** Errors *)

Inductive error : Type :=
  (** "Enum type " + name + " cannot be modified anymore." *)
  | EnumCannotBeModified (cls : string)
  (** "You cannot use unclosed enum " + name + "." *)
  | UnclosedEnum (cls : string)
  (** `Expected to see a value after <${cmd}> on line ${line}` *)
  | ExpectedValueOn (cmd : jsstring) (line : Z)
  (** `Expected to see a value after <${cmd}> at line ${line}` *)
  | ExpectedValueAt (cmd : jsstring) (line : Z)
  (** `Invalid escaping on line ${line}` *)
  | InvalidEscaping (line : Z)
  (** `Invalid command <${cmd}> on line ${line}` *)
  | InvalidCommand (cmd : jsstring) (line : Z)
  (** "Input definition has no origin." *)
  | NoOrigin
  (** "Input definition has multiple origins." *)
  | MultipleOrigins.

Inductive Res (A : Type) : Type :=
  | Ok (a : A)
  | Throw (e : error).
Arguments Ok {A} a.
Arguments Throw {A} e.

Definition bind {A B : Type} (m : Res A) (f : A -> Res B) : Res B :=
  match m with
  | Ok a => f a
  | Throw e => Throw e
  end.

Notation "'let*' x := m 'in' k" := (bind m (fun x => k))
  (at level 10, x pattern, m at level 100, k at level 200).

(** [Array.prototype.find] with a callback that may throw. *)
Fixpoint findM {A : Type} (p : A -> Res bool) (l : list A) : Res (option A) :=
  match l with
  | [] => Ok None
  | x :: l' =>
      let* b := p x in
      if b : bool then Ok (Some x) else findM p l'
  end.

(** The names the specification gives to the failures (section 7), read off
    the messages. The two document-level count checks of [Parser.parse] throw
    one and the same message, so one name covers both. *)
Inductive ErrorKind : Type :=
  | TypeAlreadyClosed
  | UnclosedEnumeration
  | MissingArgument
  | UnterminatedEscape
  | UnknownCommand
  | MissingOrigin
  | MultipleOrigin
  | MultipleEntrypoint.

Definition kind_of (e : error) : ErrorKind :=
  match e with
  | EnumCannotBeModified _ => TypeAlreadyClosed
  | UnclosedEnum _ => UnclosedEnumeration
  | ExpectedValueOn _ _ => MissingArgument
  | ExpectedValueAt _ _ => MissingArgument
  | InvalidEscaping _ => UnterminatedEscape
  | InvalidCommand _ _ => UnknownCommand
  | NoOrigin => MissingOrigin
  | MultipleOrigins => MultipleOrigin
  end.

(** ** enum.js *)

Module Enum.

(** What the declarations of the program fix for every class [c] that
    extends [Enum], directly or not: [c.name]; [String(c)], the source text
    of the class, which is the property key that [values[c]] and [closed[c]]
    use; the classes [c] extends, nearest first, [Enum] itself left out; and
    the names of the static members that the declaration of [c] has. Two
    classes declared by the same text have the same key. *)
Class ClassTable (C : Type) : Type := {
  class_name : C -> string;
  class_text : C -> string;
  class_ancestors : C -> list C;
  class_statics : C -> list string
}.

(** The names under which every class that extends [Enum] has a property
    before anything is assigned to it: its own as a function object, the
    static methods of [Enum], and what [Function.prototype] and
    [Object.prototype] hand down. *)
Definition builtin_keys : list string :=
  [ "length"; "name"; "prototype";
    "values"; "fromName"; "close";
    "arguments"; "caller"; "constructor"; "apply"; "bind"; "call";
    "toString";
    "__proto__"; "__defineGetter__"; "__defineSetter__";
    "__lookupGetter__"; "__lookupSetter__"; "hasOwnProperty";
    "isPrototypeOf"; "propertyIsEnumerable"; "toLocaleString";
    "valueOf" ]%string.

(** A property key that is an array index: the canonical decimal spelling
    of an integer from 0 to 2^32 - 2. *)
Definition digit (a : ascii) : option N :=
  let n := N_of_ascii a in
  if ((48 <=? n) && (n <=? 57))%N then Some (n - 48)%N else None.

Fixpoint digits (s : string) (acc : N) : option N :=
  match s with
  | EmptyString => Some acc
  | String a s' =>
      match digit a with
      | Some d => digits s' (10 * acc + d)%N
      | None => None
      end
  end.

Definition array_index (key : string) : option N :=
  match key with
  | EmptyString => None
  | String a rest =>
      if (N_of_ascii a =? 48)%N then
        match rest with
        | EmptyString => Some 0%N
        | String _ _ => None
        end
      else
        match digits key 0 with
        | Some n => if (n <? 4294967295)%N then Some n else None
        | None => None
        end
  end.

Fixpoint insert_index {X : Type} (i : N) (x : X) (l : list (N * X))
  : list (N * X) :=
  match l with
  | [] => [(i, x)]
  | (j, y) :: l' =>
      if (i <? j)%N then (i, x) :: l else (j, y) :: insert_index i x l'
  end.

(** The order in which [Object.keys] lists own properties kept in
    insertion order: the array indices first, ascending, then the other
    keys as inserted. *)
Definition entries {X : Type} (props : list (string * X))
  : list (string * X) :=
  List.map snd
    (fold_right
       (fun kx acc =>
          match array_index (fst kx) with
          | Some i => insert_index i kx acc
          | None => acc
          end)
       [] props)
  ++ List.filter
       (fun kx =>
          match array_index (fst kx) with
          | Some _ => false
          | None => true
          end)
       props.

Section Enum.
Context {C : Type} `{Countable C} {T : ClassTable C}.
(** The fields a subclass adds to its instances. *)
Context {F : Type}.

(** An instance of a class that extends [Enum]: the class that constructed
    it, its private [#ord], and the subclass's fields. The private [#name],
    the one field that changes after construction, is kept in the heap. *)
Record Instance : Type := MkInstance {
  constructor : C;
  ord_field : Z;
  fields : F
}.

(** A class object: the static properties that assignments gave it, which
    are its own enumerable properties, in insertion order, each holding an
    instance or ([None]) some value that is not an instance of any of the
    classes; and whether [Object.freeze] was applied to it. *)
Record ClassObj : Type := MkClassObj {
  own : list (string * option Instance);
  frozen : bool
}.

(** The module-level objects [values] and [closed], keyed by the source
    text of a class; the class objects; and the [#name] of the instances,
    an instance being told from the others by its class and ordinal. No
    entry is [null], [Some None] is [undefined]. *)
Record Heap : Type := MkHeap {
  values : gmap string Z;
  closed : gmap string bool;
  classes : gmap C ClassObj;
  names : gmap (C * Z) (option string)
}.

Definition empty_heap : Heap :=
  {| values := ∅; closed := ∅; classes := ∅; names := ∅ |}.

(** Truthiness of [closed[cls]]. *)
Definition is_closed (h : Heap) (cls : C) : bool :=
  match closed h !! class_text cls with
  | Some b => b
  | None => false
  end.

Definition class_of (h : Heap) (cls : C) : ClassObj :=
  default {| own := []; frozen := false |} (classes h !! cls).

(** Whether [cls.key] is there by declaration: a built-in, or a static
    member of the class or of one it extends. *)
Definition declared (cls : C) (key : string) : bool :=
  existsb (String.eqb key)
    (builtin_keys ++ flat_map class_statics (cls :: class_ancestors cls)).

(** [v instanceof cls]: [cls] is the class of [v] or one it extends. *)
Definition instanceof (v : Instance) (cls : C) : bool :=
  bool_decide (cls ∈ constructor v :: class_ancestors (constructor v)).

(** [constructor()], reached through [super()] from class [cls]; [f] are
    the fields the subclass constructor sets afterwards. *)
Definition new (cls : C) (f : F) (h : Heap) : Res (Instance * Heap) :=
  if is_closed h cls then Throw (EnumCannotBeModified (class_name cls))
  else
    let n := default 0 (values h !! class_text cls) in
    Ok ({| constructor := cls; ord_field := n; fields := f |},
        {| values := <[class_text cls := n + 1]> (values h);
           closed := closed h;
           classes := classes h;
           names := delete (cls, n) (names h) |}).

(** [ord()]. *)
Definition ord (h : Heap) (v : Instance) : Res Z :=
  if negb (is_closed h (constructor v)) then
    Throw (UnclosedEnum (class_name (constructor v)))
  else Ok (ord_field v).

(** [Object.keys(cls)] with the values of the properties. *)
Definition props (h : Heap) (cls : C) : list (string * option Instance) :=
  entries (own (class_of h cls)).

Definition set_name (v : Instance) (n : option string) (h : Heap) : Heap :=
  {| values := values h;
     closed := closed h;
     classes := classes h;
     names := <[(constructor v, ord_field v) := n]> (names h) |}.

(** [name()]: the result, [None] being [undefined], and the heap it
    leaves. *)
Definition name (h : Heap) (v : Instance) : Res (option string) * Heap :=
  if negb (is_closed h (constructor v)) then
    (Throw (UnclosedEnum (class_name (constructor v))), h)
  else
    match names h !! (constructor v, ord_field v) with
    | Some n => (Ok n, h)
    | None =>
        match
          findM
            (fun kv : string * option Instance =>
               match snd kv with
               | Some w =>
                   if instanceof w (constructor v) then
                     let* a := ord h w in
                     let* b := ord h v in
                     Ok (a =? b)
                   else Ok false
               | None => Ok false
               end)
            (props h (constructor v))
        with
        | Throw e => (Throw e, h)
        | Ok found =>
            let n := option_map fst found in
            (Ok n, set_name v n h)
        end
    end.

(** [static values()]. *)
Definition values_of (h : Heap) (cls : C) : list Instance :=
  flat_map
    (fun kv : string * option Instance =>
       match snd kv with
       | Some v => if instanceof v cls then [v] else []
       | None => []
       end)
    (props h cls).

(** [items.find(item => item.name() === n)], every call of [name()]
    leaving its mark on the heap. *)
Fixpoint find_name (n : string) (items : list Instance) (h : Heap)
  : Res (option Instance) * Heap :=
  match items with
  | [] => (Ok None, h)
  | item :: items' =>
      match name h item with
      | (Throw e, h') => (Throw e, h')
      | (Ok m, h') =>
          if bool_decide (m = Some n) then (Ok (Some item), h')
          else find_name n items' h'
      end
  end.

(** [static fromName(name)]. *)
Definition fromName (h : Heap) (cls : C) (n : string)
  : Res (option Instance) * Heap :=
  find_name n (values_of h cls) h.

(** [static close()]. *)
Definition close (cls : C) (h : Heap) : Heap :=
  {| values := values h;
     closed := <[class_text cls := true]> (closed h);
     classes := <[cls := {| own := own (class_of h cls); frozen := true |}]>
                  (classes h);
     names := names h |}.

Fixpoint put (key : string) (val : option Instance)
    (l : list (string * option Instance)) : list (string * option Instance) :=
  match l with
  | [] => [(key, val)]
  | (k, w) :: l' =>
      if bool_decide (k = key) then (k, val) :: l'
      else (k, w) :: put key val l'
  end.

Definition has_own (h : Heap) (cls : C) (key : string) : bool :=
  existsb (fun kv : string * option Instance => bool_decide (fst kv = key))
    (own (class_of h cls)).

(** Whether [cls.key = val] can store, for a key that is not [declared]
    (an assignment to a declared key does other things: the property is
    read-only, or a setter, or a method that stays out of [Object.keys], or
    [toString], which [String(cls)] calls): an own property of a frozen
    class cannot be written, a property inherited from a frozen class cannot
    be shadowed by an assignment, and a frozen class takes no new
    property. *)
Definition writable (h : Heap) (cls : C) (key : string) : bool :=
  if has_own h cls key then negb (frozen (class_of h cls))
  else
    match
      List.find (fun c => has_own h c key) (class_ancestors cls)
    with
    | Some c => negb (frozen (class_of h c)) && negb (frozen (class_of h cls))
    | None => negb (frozen (class_of h cls))
    end.

Definition store (cls : C) (key : string) (val : option Instance) (h : Heap)
  : Heap :=
  {| values := values h;
     closed := closed h;
     classes := <[cls := {| own := put key val (own (class_of h cls));
                            frozen := frozen (class_of h cls) |}]>
                  (classes h);
     names := names h |}.

(** What an assignment [cls.key = val] does. *)
Inductive assignment : Type :=
  | Assigned (h : Heap)
  | TypeError.

(** [cls.key = val] in strict-mode code: a [TypeError] when the property
    cannot be written. *)
Definition assign_strict (cls : C) (key : string) (val : option Instance)
    (h : Heap) : assignment :=
  if writable h cls key then Assigned (store cls key val h) else TypeError.

(** [cls.key = v] in sloppy-mode code, as the code of a CommonJS module
    without a directive is: ignored when the property cannot be written. *)
Definition set_static (cls : C) (key : string) (v : Instance) (h : Heap)
  : Heap :=
  if writable h cls key then store cls key (Some v) h else h.

(** [cls.key], own or inherited, when it holds an instance; [None] is any
    other value, [undefined] among them. *)
Definition get_static (h : Heap) (cls : C) (key : string) : option Instance :=
  match
    List.find (fun c => has_own h c key) (cls :: class_ancestors cls)
  with
  | Some c =>
      match
        List.find (fun kv : string * option Instance =>
                     bool_decide (fst kv = key))
          (own (class_of h c))
      with
      | Some kv => snd kv
      | None => None
      end
  | None => None
  end.

End Enum.

Arguments Instance : clear implicits.
Arguments ClassObj : clear implicits.
Arguments Heap C {_ _} F.
Arguments assignment C {_ _} F.

End Enum.

(** ** parser.js: the command types *)

Module CommandType.

(** The one class of the program that extends [Enum]. *)
Inductive class : Type := cls.

#[global] Instance class_eq_dec : EqDecision class.
Proof. solve_decision. Defined.

#[global] Instance class_countable : Countable class.
Proof.
  refine (inj_countable' (fun _ : class => tt) (fun _ : unit => cls) _).
  intros []. reflexivity.
Defined.

(** [String(CommandType)]: lines 6 to 36. *)
Definition source : string :=
"class CommandType extends Enum {

    /**
     * The tokens which correspond to this command in the definition document.
     *
     * @type {String[]}
     */
    #tokens;

    /**
     * @param {String} token
     * @param {String} tokens
     */
    constructor(token, ...tokens) {
        super();
        this.#tokens = [token, ...tokens];
    }

    tokens() {
        return this.#tokens;
    }

    /**
     * @param {String} token
     * @return {this}
     */
    static fromToken(token) {
        return this.values().find(value => value.tokens().indexOf(token) !== -1);
    }

}".

#[global] Instance table : Enum.ClassTable class := {|
  Enum.class_name := fun _ => "CommandType"%string;
  Enum.class_text := fun _ => source;
  Enum.class_ancestors := fun _ => [];
  Enum.class_statics := fun _ => ["fromToken"]%string
|}.

(** The class's own field is [#tokens]. *)
Definition t : Type := Enum.Instance class (list jsstring).

Definition tokens (v : t) : list jsstring := Enum.fields v.

(** The static initialisation, lines 42 to 68: five constructor calls, each
    bound to a static property, then [close()]. *)
Definition init (h : Enum.Heap class (list jsstring))
  : Res (Enum.Heap class (list jsstring)) :=
  let* (v, h) := Enum.new cls [js "FROM"] h in
  let h := Enum.set_static cls "ORIGIN" v h in
  let* (v, h) := Enum.new cls [js "RUN"; js "EXEC"] h in
  let h := Enum.set_static cls "RUN" v h in
  let* (v, h) := Enum.new cls [js "COPY"] h in
  let h := Enum.set_static cls "COPY" v h in
  let* (v, h) := Enum.new cls [js "WORKDIR"] h in
  let h := Enum.set_static cls "WORKDIR" v h in
  let* (v, h) := Enum.new cls [js "ENTRYPOINT"; js "CMD"] h in
  let h := Enum.set_static cls "ENTRYPOINT" v h in
  Ok (Enum.close cls h).

(** The heap once the module is loaded. *)
Definition loaded : Enum.Heap class (list jsstring) :=
  match init Enum.empty_heap with
  | Ok h => h
  | Throw _ => Enum.empty_heap
  end.

(** [CommandType.ORIGIN] and the like: property reads, [None] being
    [undefined]. *)
Definition ORIGIN : option t := Enum.get_static loaded cls "ORIGIN".
Definition RUN : option t := Enum.get_static loaded cls "RUN".
Definition COPY : option t := Enum.get_static loaded cls "COPY".
Definition WORKDIR : option t := Enum.get_static loaded cls "WORKDIR".
Definition ENTRYPOINT : option t := Enum.get_static loaded cls "ENTRYPOINT".

(** [static fromToken(token)]; [indexOf] compares with [===]. *)
Definition fromToken (token : jsstring) : option t :=
  List.find
    (fun value => existsb (fun tk => bool_decide (tk = token)) (tokens value))
    (Enum.values_of loaded cls).

End CommandType.

(** [a === b] on instances. Two instances of one class are the same object
    exactly when their ordinals agree: the class's counter never hands out an
    ordinal twice. *)
Definition same_object (a : CommandType.t) (b : option CommandType.t) : bool :=
  match b with
  | Some b' =>
      bool_decide (Enum.constructor a = Enum.constructor b')
      && (Enum.ord_field a =? Enum.ord_field b')
  | None => false
  end.

(** ** parser.js: the command *)

Record Command : Type := MkCommand {
  type : CommandType.t;
  value : jsstring;
  hashCode : Z
}.

(** One round of the loop of lines 99 to 103. *)
Definition hash_step (hash chr : Z) : Z :=
  let hash := js_shl hash 5 - hash + chr in
  js_or hash 0.

(** [new Command(type, value)], lines 94 to 105. *)
Definition new_Command (type : CommandType.t) (value : jsstring)
  : Res Command :=
  let value := trim value in
  let* hash := Enum.ord CommandType.loaded type in
  let hash := js_shl hash 5 - hash in
  let hash := fold_left hash_step value hash in
  Ok {| type := type; value := value; hashCode := hash |}.

(** ** parser.js: the parser

    The cursor is kept as the text still to be read, [text.slice(cursor)]:
    [cursor < text.length] is "the rest is not empty", [text[cursor]] is its
    head, [cursor++] drops the head, and [cursor === text.length - 1] is
    "the rest has exactly one character". *)

Module Parser.

(** [while (cursor < text.length && text[cursor] === ' ') cursor++],
    lines 167 and 220. *)
Fixpoint skip_spaces (rest : jsstring) : jsstring :=
  match rest with
  | c :: rest' => if c =? SPACE then skip_spaces rest' else rest
  | [] => []
  end.

(** [while (cursor < text.length && text[cursor] !== '\n') cursor++],
    lines 201 and 242. *)
Fixpoint skip_line (rest : jsstring) : jsstring :=
  match rest with
  | c :: rest' => if c =? NEWLINE then rest else skip_line rest'
  | [] => []
  end.

(** The token loop, lines 198 to 216: the token read, the rest of the text
    and the [skip] flag. *)
Fixpoint read_cmd (rest cmd : jsstring) (line : Z)
  : Res (jsstring * jsstring * bool) :=
  match rest with
  | [] => Ok (cmd, [], false)
  | c :: rest' =>
      if c =? SPACE then Ok (cmd, rest, false)
      else if c =? HASH then Ok (cmd, skip_line rest, true)
      else if c =? NEWLINE then Throw (ExpectedValueOn cmd line)
      else read_cmd rest' (cmd ++ [c]) line
  end.

(** The argument loop, lines 229 to 256: the argument read, the rest of the
    text and the line counter. *)
Fixpoint read_args (rest args : jsstring) (line : Z)
  : Res (jsstring * jsstring * Z) :=
  match rest with
  | [] => Ok (args, [], line)
  | c :: rest' =>
      if c =? NEWLINE then Ok (args, rest, line)
      else if c =? BACKSLASH then
        match rest' with
        | [] => Throw (InvalidEscaping line)
        | c' :: rest'' =>
            let line := if c' =? NEWLINE then line + 1 else line in
            read_args rest'' (args ++ [c']) line
        end
      else if c =? HASH then Ok (args, skip_line rest, line)
      else
        let line := if c =? NEWLINE then line + 1 else line in
        read_args rest' (args ++ [c]) line
  end.

(** Lines 184 to 257, entered with the cursor on a character that is
    neither a space nor a line feed: the token, the raw argument, the rest
    of the text and the line counter. *)
Definition scan_line (rest : jsstring) (line : Z)
  : Res (jsstring * jsstring * jsstring * Z) :=
  let* (cmd, rest, skip) := read_cmd rest [] line in
  if negb skip then
    let rest := skip_spaces rest in
    match rest with
    | [] => Throw (ExpectedValueAt cmd line)
    | c :: _ =>
        if c =? NEWLINE then Throw (ExpectedValueAt cmd line)
        else
          let* (args, rest, line) := read_args rest [] line in
          Ok (cmd, args, rest, line)
    end
  else Ok (cmd, [], rest, line).

(** Lines 258 to 275. *)
Definition finish_line (cmd args : jsstring) (line : Z)
    (result : list Command) : Res (list Command) :=
  let args := trim args in
  if negb (length cmd =? 0)%nat && (length args =? 0)%nat then
    Throw (ExpectedValueOn cmd line)
  else if negb (length cmd =? 0)%nat && negb (length args =? 0)%nat then
    match CommandType.fromToken cmd with
    | None => Throw (InvalidCommand cmd line)
    | Some type =>
        let* c := new_Command type args in
        Ok (result ++ [c])
    end
  else Ok result.

(** What one round of the outer loop does. *)
Inductive step : Type :=
  | Continue (rest : jsstring) (line : Z) (result : list Command)
  | Break (line : Z) (result : list Command)
  | Raise (e : error).

(** The body of the outer loop, lines 166 to 275. *)
Definition iteration (rest : jsstring) (line : Z) (result : list Command)
  : step :=
  let rest := skip_spaces rest in
  match rest with
  | [] => Break line result
  | c :: rest' =>
      if c =? NEWLINE then Continue rest' (line + 1) result
      else
        match scan_line rest line with
        | Throw e => Raise e
        | Ok (cmd, args, rest, line) =>
            match finish_line cmd args line result with
            | Throw e => Raise e
            | Ok result => Continue rest line result
            end
        end
  end.

(** The outer loop, line 165; [None] when [fuel] rounds were not enough. *)
Fixpoint loop (fuel : nat) (rest : jsstring) (line : Z)
    (result : list Command) : option (Res (Z * list Command)) :=
  match rest with
  | [] => Some (Ok (line, result))
  | _ :: _ =>
      match fuel with
      | O => None
      | S fuel' =>
          match iteration rest line result with
          | Continue rest' line' result' => loop fuel' rest' line' result'
          | Break line' result' => Some (Ok (line', result'))
          | Raise e => Some (Throw e)
          end
      end
  end.

(** Lines 154 to 276: every round consumes at least one character, so
    [length text] rounds are enough. *)
Definition scan (text : jsstring) : option (Res (Z * list Command)) :=
  loop (length text) text 1 [].

Definition count (k : option CommandType.t) (result : list Command) : nat :=
  length (List.filter (fun cmd => same_object (type cmd) k) result).

(** The checks on the whole document, lines 277 to 291. *)
Definition validate (result : list Command) : Res (list Command) :=
  if (0 <? length result)%nat
     && negb (match result with
              | c :: _ => same_object (type c) CommandType.ORIGIN
              | [] => false
              end)
  then Throw NoOrigin
  else if (0 <? length result)%nat
          && (1 <? count CommandType.ORIGIN result)%nat
  then Throw MultipleOrigins
  else if (0 <? length result)%nat
          && (1 <? count CommandType.ENTRYPOINT result)%nat
  then Throw MultipleOrigins
  else Ok result.

(** [parse(text)]. *)
Definition parse (text : jsstring) : option (Res (list Command)) :=
  match scan text with
  | None => None
  | Some (Throw e) => Some (Throw e)
  | Some (Ok (_, result)) => Some (validate result)
  end.

End Parser.

(** ** Notions the properties are stated with *)

(** The states in which the outer loop tests its condition while parsing
    [text]. *)
Inductive head (text : jsstring)
  : jsstring -> Z -> list Command -> Prop :=
  | head_start : head text text 1 []
  | head_next rest line result rest' line' result' :
      head text rest line result ->
      Parser.iteration rest line result = Parser.Continue rest' line' result' ->
      head text rest' line' result'.

(** The fingerprint as section 4.3 of the specification words it. The shift
    and the subtraction are those of the integers; one wrap to a signed
    32-bit integer, the one in [-2^31, 2^31) that differs from the number by
    a multiple of 2^32, ends every round. *)
Definition wrap32 (z : Z) : Z := (z + 2 ^ 31) mod 2 ^ 32 - 2 ^ 31.

Definition fingerprint (ordinal : Z) (value : jsstring) : Z :=
  let h := ordinal in
  let h := Z.shiftl h 5 - h in
  fold_left (fun h c => wrap32 (Z.shiftl h 5 - h + c)) value h.

(** [parse text] throws, and the specification calls the error [k]. *)
Definition fails_with (text : jsstring) (k : ErrorKind) : Prop :=
  exists e, Parser.parse text = Some (Throw e) /\ kind_of e = k.

(** A run of spaces. *)
Definition spaces (s : jsstring) : bool :=
  forallb (fun c => c =? SPACE) s.

(** A character the token loop appends to the token, and a non-empty run
    of them. *)
Definition token_char (c : Z) : bool :=
  negb (c =? SPACE) && negb (c =? HASH) && negb (c =? NEWLINE).

Definition token (s : jsstring) : bool :=
  negb (length s =? 0)%nat && forallb token_char s.

(** Whitespace that [trim] strips and that does not end the line. *)
Definition blank_char (c : Z) : bool :=
  is_trimmable c && negb (c =? NEWLINE).

(** The end of a physical line: a line feed, or the end of the input. *)
Definition line_end (s : jsstring) : bool :=
  match s with
  | [] => true
  | c :: _ => c =? NEWLINE
  end.

(** The physical lines of a text: the runs between line feeds. *)
Fixpoint split_lines (text : jsstring) : list jsstring :=
  match text with
  | [] => [[]]
  | c :: text' =>
      if c =? NEWLINE then [] :: split_lines text'
      else
        match split_lines text' with
        | l :: ls => (c :: l) :: ls
        | [] => [[c]]
        end
  end.

(** A line that holds nothing but spaces, or whose first character other
    than a space is the comment sign. *)
Definition blank_or_comment (l : jsstring) : bool :=
  match Parser.skip_spaces l with
  | [] => true
  | c :: _ => c =? HASH
  end.

Definition blank_document (text : jsstring) : bool :=
  forallb blank_or_comment (split_lines text).

(** What the argument loop reads in one round: a character that stands for
    itself, or a backslash and the character it escapes. *)
Inductive piece : Type :=
  | Plain (c : Z)
  | Escaped (c : Z).

Definition plain_char (c : Z) : bool :=
  negb (c =? NEWLINE) && negb (c =? BACKSLASH) && negb (c =? HASH).

Definition well_formed (p : piece) : bool :=
  match p with
  | Plain c => plain_char c
  | Escaped _ => true
  end.

Fixpoint spell (ps : list piece) : jsstring :=
  match ps with
  | [] => []
  | Plain c :: ps' => c :: spell ps'
  | Escaped c :: ps' => BACKSLASH :: c :: spell ps'
  end.

Fixpoint escaped_newlines (ps : list piece) : Z :=
  match ps with
  | [] => 0
  | Plain _ :: ps' => escaped_newlines ps'
  | Escaped c :: ps' =>
      (if c =? NEWLINE then 1 else 0) + escaped_newlines ps'
  end.

(** The registry as section 3 of the specification lists it: the ordinal and
    the alias tokens of each kind, in registration order; and token
    resolution as section 4.2 words it. *)
Definition registry : list (Z * list jsstring) :=
  [ (0, [js "FROM"]);
    (1, [js "RUN"; js "EXEC"]);
    (2, [js "COPY"]);
    (3, [js "WORKDIR"]);
    (4, [js "ENTRYPOINT"; js "CMD"]) ].

Definition resolveToken (tk : jsstring) : option Z :=
  option_map fst
    (List.find
       (fun entry => existsb (fun alias => bool_decide (alias = tk)) (snd entry))
       registry).

(** Classes declared as [class N extends Enum {}], each told from the
    others by its name [N]. *)
#[global] Instance classes_by_name : Enum.ClassTable string := {|
  Enum.class_name := fun c => c;
  Enum.class_text :=
    fun c => String.append "class " (String.append c " extends Enum {}");
  Enum.class_ancestors := fun _ => [];
  Enum.class_statics := fun _ => []
|}.

(** A class [E] with one variant bound as [E.A], not closed yet. *)
Definition half_built : Enum.Heap string unit :=
  match Enum.new "E" tt Enum.empty_heap with
  | Ok (v, h) => Enum.set_static "E" "A" v h
  | Throw _ => Enum.empty_heap
  end.

(** Four more classes: two declared by one and the same text,
    [class E extends Enum {}], and [class Base extends Enum {}] with
    [class Derived extends Base {}]. *)
Inductive sample : Type := TwinA | TwinB | Base | Derived.

#[global] Instance sample_eq_dec : EqDecision sample.
Proof. solve_decision. Defined.

#[global] Instance sample_countable : Countable sample.
Proof.
  refine (inj_countable'
            (fun c => match c with
                      | TwinA => 0%nat
                      | TwinB => 1%nat
                      | Base => 2%nat
                      | Derived => 3%nat
                      end)
            (fun n => match n with
                      | 0%nat => TwinA
                      | 1%nat => TwinB
                      | 2%nat => Base
                      | _ => Derived
                      end) _).
  intros []; reflexivity.
Defined.

#[global] Instance sample_table : Enum.ClassTable sample := {|
  Enum.class_name :=
    fun c => match c with
             | TwinA | TwinB => "E"
             | Base => "Base"
             | Derived => "Derived"
             end%string;
  Enum.class_text :=
    fun c => match c with
             | TwinA | TwinB => "class E extends Enum {}"
             | Base => "class Base extends Enum {}"
             | Derived => "class Derived extends Base {}"
             end%string;
  Enum.class_ancestors :=
    fun c => match c with
             | Derived => [Base]
             | _ => []
             end;
  Enum.class_statics := fun _ => []
|}.



(** [B.X = v], [A.close()] and [v.name()], for the two classes of one
    text; then [B.X = 0], [B.Y = v] from strict-mode code, and
    [B.close()]. *)
Definition rebound_twin : Enum.Heap sample unit :=
  match Enum.new TwinB tt Enum.empty_heap with
  | Ok (v, h) =>
      let h := Enum.close TwinA (Enum.set_static TwinB "X" v h) in
      let h := snd (Enum.name h v) in
      match Enum.assign_strict TwinB "X" None h with
      | Enum.Assigned h =>
          match Enum.assign_strict TwinB "Y" (Some v) h with
          | Enum.Assigned h => Enum.close TwinB h
          | Enum.TypeError => Enum.empty_heap
          end
      | Enum.TypeError => Enum.empty_heap
      end
  | Throw _ => Enum.empty_heap
  end.

(** The state of the outer loop after [n] rounds on [text], when none of
    them threw or left the loop. *)
Fixpoint rounds (n : nat) (text : jsstring)
  : option (jsstring * Z * list Command) :=
  match n with
  | O => Some (text, 1, [])
  | S n' =>
      match rounds n' text with
      | Some (rest, line, result) =>
          match Parser.iteration rest line result with
          | Parser.Continue rest' line' result' => Some (rest', line', result')
          | _ => None
          end
      | None => None
      end
  end.

(** The command that the line "FROM a" yields. *)
Definition from_a : Command :=
  {| type := {| Enum.constructor := CommandType.cls; Enum.ord_field := 0;
                Enum.fields := [js "FROM"] |};
     value := js "a";
     hashCode := 97 |}.

(** A run of characters without a space and without a line feed, and one
    without a comment sign. *)
Definition unbroken (s : jsstring) : bool :=
  forallb (fun c => negb (c =? SPACE) && negb (c =? NEWLINE)) s.

Definition hash_free (s : jsstring) : bool :=
  forallb (fun c => negb (c =? HASH)) s.

(** The number of line feeds of a text. *)
Fixpoint count_nl (s : jsstring) : Z :=
  match s with
  | [] => 0
  | c :: s' => (if c =? NEWLINE then 1 else 0) + count_nl s'
  end.

(** The line number interpolated into a message, when there is one. *)
Definition error_line (e : error) : option Z :=
  match e with
  | ExpectedValueOn _ l => Some l
  | ExpectedValueAt _ l => Some l
  | InvalidEscaping l => Some l
  | InvalidCommand _ l => Some l
  | _ => None
  end.

(** The characters that pieces stand for: a plain character itself, an
    escaped character without its backslash. *)
Fixpoint literal (ps : list piece) : jsstring :=
  match ps with
  | [] => []
  | Plain c :: ps' => c :: literal ps'
  | Escaped c :: ps' => c :: literal ps'
  end.

(** What may follow an argument on its line: nothing, or a comment sign and
    characters up to the end of the line. *)
Definition trailing_comment (s : jsstring) : bool :=
  match s with
  | [] => true
  | c :: s' => (c =? HASH) && forallb (fun d => negb (d =? NEWLINE)) s'
  end.

(** A command as the parser builds them: one of the five kinds, a value
    that is not empty and has nothing left to trim, and the fingerprint of
    the two. *)
Definition well_kept (c : Command) : Prop :=
  In (type c) (Enum.values_of CommandType.loaded CommandType.cls)
  /\ value c <> []
  /\ trim (value c) = value c
  /\ hashCode c = fingerprint (Enum.ord_field (type c)) (value c).

(** A run of characters without a line feed. *)
Definition no_nl (s : jsstring) : bool :=
  forallb (fun c => negb (c =? NEWLINE)) s.

(** The physical lines a document is written with: a blank line, a line
    with only a comment, and an instruction (indentation, token, the pieces
    of the argument, and what follows the argument). *)
Inductive doc_line : Type :=
  | BlankLine (sp : jsstring)
  | CommentLine (sp body : jsstring)
  | Instruction (sp tok : jsstring) (ps : list piece) (cm : jsstring).

Definition render_line (l : doc_line) : jsstring :=
  match l with
  | BlankLine sp => sp
  | CommentLine sp body => sp ++ HASH :: body
  | Instruction sp tok ps cm => sp ++ tok ++ SPACE :: spell ps ++ cm
  end.

(** The text of a document: its lines, each ended by a line feed. *)
Fixpoint render (doc : list doc_line) : jsstring :=
  match doc with
  | [] => []
  | l :: doc' => render_line l ++ NEWLINE :: render doc'
  end.

Definition line_ok (l : doc_line) : bool :=
  match l with
  | BlankLine sp => spaces sp
  | CommentLine sp body => spaces sp && no_nl body
  | Instruction sp tok ps cm =>
      spaces sp && token tok && forallb well_formed ps
      && trailing_comment cm
      && negb (length (trim (literal ps)) =? 0)%nat
      && match CommandType.fromToken tok with
         | Some _ => true
         | None => false
         end
  end.

(** The commands of a document, one for each instruction, in the order of
    the lines. *)
Fixpoint commands (doc : list doc_line) : list Command :=
  match doc with
  | [] => []
  | Instruction _ tok ps _ :: doc' =>
      match CommandType.fromToken tok with
      | Some k =>
          match new_Command k (literal ps) with
          | Ok c => c :: commands doc'
          | Throw _ => commands doc'
          end
      | None => commands doc'
      end
  | _ :: doc' => commands doc'
  end.

(** What the instructions of a document say: the kind the token resolves
    to and the trimmed argument, in the order of the lines. *)
Fixpoint instructions (doc : list doc_line)
  : list (option CommandType.t * jsstring) :=
  match doc with
  | [] => []
  | Instruction _ tok ps _ :: doc' =>
      (CommandType.fromToken tok, trim (literal ps)) :: instructions doc'
  | _ :: doc' => instructions doc'
  end.

(** A Rocq string as a JavaScript string. *)
Definition of_string (s : string) : jsstring :=
  List.map code (list_ascii_of_string s).

(** [toString()] of a command, line 131; an [undefined] name is spelled
    out by the concatenation. *)
Definition Command_toString (h : Enum.Heap CommandType.class (list jsstring))
    (c : Command) : Res jsstring * Enum.Heap CommandType.class (list jsstring) :=
  match Enum.name h (type c) with
  | (Throw e, h') => (Throw e, h')
  | (Ok n, h') =>
      (Ok (match n with
           | Some k => of_string k
           | None => of_string "undefined"
           end ++ js " " ++ value c), h')
  end.

(** Static properties that each hold an instance. *)
Definition bindings {C F : Type} (l : list (string * Enum.Instance C F))
  : list (string * option (Enum.Instance C F)) :=
  List.map (fun kv => (fst kv, Some (snd kv))) l.

(** No instance bound in [l] has another name cached than its key. *)
Definition cached_right {C : Type} `{Countable C} {F : Type}
    (h : Enum.Heap C F) (l : list (string * Enum.Instance C F)) : Prop :=
  forall k v,
    In (k, v) l ->
    Enum.names h !! (Enum.constructor v, Enum.ord_field v) = None
    \/ Enum.names h !! (Enum.constructor v, Enum.ord_field v)
       = Some (Some k).

(** The kinds with the keys they are bound under. *)
Definition loaded_bindings : list (string * CommandType.t) :=
  flat_map
    (fun kv : string * option CommandType.t =>
       match snd kv with
       | Some v => [(fst kv, v)]
       | None => []
       end)
    (Enum.props CommandType.loaded CommandType.cls).

(** The heaps the loaded module can be in: [name()] may have cached the
    names of some kinds, and nothing else ever changes. *)
Definition settled (h : Enum.Heap CommandType.class (list jsstring)) : Prop :=
  Enum.values h = Enum.values CommandType.loaded
  /\ Enum.closed h = Enum.closed CommandType.loaded
  /\ Enum.classes h = Enum.classes CommandType.loaded
  /\ cached_right h loaded_bindings.

(** ** glassine.js: the column text of the progress bars *)

Module Glassine.

(** [s.substring(0, end)] for an integral [end]: both ends are clamped to
    the string, and the smaller one comes first. *)
Definition substring0 (s : jsstring) (e : Z) : jsstring :=
  let len := Z.of_nat (length s) in
  let final_end := Z.min (Z.max e 0) len in
  firstn (Z.to_nat final_end) s.

(** [_strLimit(value)], lines 62 to 66. *)
Definition _strLimit (value : jsstring) : jsstring :=
  let value := substring0 value (Z.min 14 (Z.of_nat (length value))) in
  let value :=
    value ++ substring0 (js "              ") (14 - Z.of_nat (length value)) in
  value.

End Glassine.

(** ** The outer loop terminates *)

Section Progress.
Import Parser.

Lemma skip_spaces_length rest :
  (length (skip_spaces rest) <= length rest)%nat.
Proof.
  induction rest as [|c rest IH]; simpl; [lia|].
  destruct (c =? SPACE); simpl; lia.
Qed.

Lemma skip_line_length rest :
  (length (skip_line rest) <= length rest)%nat.
Proof.
  induction rest as [|c rest IH]; simpl; [lia|].
  destruct (c =? NEWLINE); simpl; lia.
Qed.

Lemma read_cmd_length rest : forall cmd line cmd' rest' skip,
  read_cmd rest cmd line = Ok (cmd', rest', skip) ->
  (length rest' <= length rest)%nat.
Proof.
  induction rest as [|c rest IH]; simpl; intros cmd line cmd' rest' skip H.
  - inversion H; subst; simpl; lia.
  - destruct (c =? SPACE); [inversion H; subst; simpl; lia|].
    destruct (c =? HASH).
    { inversion H; subst.
      destruct (c =? NEWLINE); simpl; [lia|].
      pose proof (skip_line_length rest); lia. }
    destruct (c =? NEWLINE); [discriminate|].
    apply IH in H. lia.
Qed.

(** Entered on a character that is not a space, the token loop moves the
    cursor. *)
Lemma read_cmd_progress c rest cmd line cmd' rest' skip :
  c <> SPACE -> c <> NEWLINE ->
  read_cmd (c :: rest) cmd line = Ok (cmd', rest', skip) ->
  (length rest' <= length rest)%nat.
Proof.
  intros Hs Hn. simpl.
  destruct (Z.eqb_spec c SPACE); [contradiction|].
  destruct (Z.eqb_spec c NEWLINE); [contradiction|].
  destruct (c =? HASH).
  - intros H; inversion H; subst. apply skip_line_length.
  - apply read_cmd_length.
Qed.

Lemma read_args_length : forall n rest args line args' rest' line',
  (length rest <= n)%nat ->
  read_args rest args line = Ok (args', rest', line') ->
  (length rest' <= length rest)%nat.
Proof.
  induction n as [|n IH]; intros rest args line args' rest' line' Hn H.
  - destruct rest; [|simpl in Hn; lia]. inversion H; subst; simpl; lia.
  - destruct rest as [|c rest]; [inversion H; subst; simpl; lia|].
    simpl in H, Hn.
    destruct (c =? NEWLINE); [inversion H; subst; simpl; lia|].
    destruct (c =? BACKSLASH).
    { destruct rest as [|c' rest'']; [discriminate|].
      apply IH in H; simpl in *; lia. }
    destruct (c =? HASH).
    { inversion H; subst. pose proof (skip_line_length rest). simpl; lia. }
    apply IH in H; simpl; lia.
Qed.

Lemma scan_line_progress c rest line cmd args rest' line' :
  c <> SPACE -> c <> NEWLINE ->
  scan_line (c :: rest) line = Ok (cmd, args, rest', line') ->
  (length rest' <= length rest)%nat.
Proof.
  intros Hs Hn. unfold scan_line.
  destruct (read_cmd (c :: rest) [] line) as [[[cmd0 rest0] skip]|e] eqn:E;
    simpl; [|discriminate].
  apply read_cmd_progress in E; try assumption.
  destruct skip; simpl.
  - intros H; inversion H; subst; assumption.
  - pose proof (skip_spaces_length rest0) as Hsp.
    destruct (skip_spaces rest0) as [|d rest1] eqn:E1; [discriminate|].
    destruct (d =? NEWLINE); [discriminate|].
    destruct (read_args (d :: rest1) [] line) as [[[a r] l]|e] eqn:E2;
      simpl; [|discriminate].
    intros H; inversion H; subst.
    eapply read_args_length in E2; [|reflexivity]. lia.
Qed.

Lemma skip_spaces_head rest c rest' :
  skip_spaces rest = c :: rest' -> c <> SPACE.
Proof.
  induction rest as [|d rest IH]; simpl; [discriminate|].
  destruct (Z.eqb_spec d SPACE); [assumption|].
  intros H; inversion H; subst; assumption.
Qed.

(** Every round of the outer loop that goes on consumes a character. *)
Lemma iteration_progress rest line result rest' line' result' :
  iteration rest line result = Continue rest' line' result' ->
  (length rest' < length rest)%nat.
Proof.
  unfold iteration.
  pose proof (skip_spaces_length rest) as Hsp.
  destruct (skip_spaces rest) as [|c rest1] eqn:E; [discriminate|].
  pose proof (skip_spaces_head _ _ _ E) as Hc.
  simpl in Hsp.
  destruct (Z.eqb_spec c NEWLINE).
  - intros H; inversion H; subst; lia.
  - destruct (scan_line (c :: rest1) line) as [[[[cmd args] rest2] line2]|e]
      eqn:E2; [|discriminate].
    apply scan_line_progress in E2; try assumption.
    destruct (finish_line cmd args line2 result); [|discriminate].
    intros H; inversion H; subst; lia.
Qed.

Lemma loop_enough : forall fuel rest line result,
  (length rest <= fuel)%nat ->
  loop fuel rest line result = loop (length rest) rest line result.
Proof.
  induction fuel as [fuel IH] using lt_wf_ind.
  intros rest line result Hf.
  destruct rest as [|c rest]; [destruct fuel; reflexivity|].
  destruct fuel as [|fuel]; [simpl in Hf; lia|].
  simpl length. cbn [loop].
  destruct (iteration (c :: rest) line result) as [r l res| |] eqn:E;
    try reflexivity.
  apply iteration_progress in E. simpl in *.
  rewrite (IH fuel) by lia.
  rewrite (IH (length rest)) by lia.
  reflexivity.
Qed.

Lemma loop_total : forall fuel rest line result,
  (length rest <= fuel)%nat ->
  loop fuel rest line result <> None.
Proof.
  induction fuel as [|fuel IH]; intros rest line result Hf.
  - destruct rest; [discriminate|simpl in Hf; lia].
  - destruct rest as [|c rest]; [discriminate|].
    cbn [loop].
    destruct (iteration (c :: rest) line result) as [r l res| |] eqn:E;
      try discriminate.
    apply iteration_progress in E. apply IH. simpl in *; lia.
Qed.

(** [parse] always comes back with a result or an error. *)
Lemma parse_total text : parse text <> None.
Proof.
  unfold parse, scan.
  pose proof (loop_total (length text) text 1 [] (Nat.le_refl _)) as H.
  destruct (loop (length text) text 1 []) as [[[l r]|e]|];
    [discriminate|discriminate|contradiction].
Qed.

Lemma head_scan text rest line result :
  head text rest line result ->
  scan text = loop (length rest) rest line result.
Proof.
  induction 1 as [|rest line result rest' line' result' _ IH E].
  - reflexivity.
  - rewrite IH. pose proof (iteration_progress _ _ _ _ _ _ E) as Hp.
    destruct rest as [|c rest]; [simpl in Hp; lia|].
    simpl length. cbn [loop]. rewrite E.
    apply loop_enough. simpl in Hp; lia.
Qed.

(** An error raised in any round is the outcome of [parse]. *)
Lemma head_raise text rest line result e :
  head text rest line result ->
  iteration rest line result = Raise e ->
  parse text = Some (Throw e).
Proof.
  intros Hh E. unfold parse. rewrite (head_scan _ _ _ _ Hh).
  destruct rest as [|c rest]; [discriminate|].
  simpl length. cbn [loop]. rewrite E. reflexivity.
Qed.

End Progress.

(** ** The fingerprint *)

Lemma ToInt32_wrap32 z : ToInt32 z = wrap32 z.
Proof.
  unfold ToInt32, wrap32. cbv zeta.
  pose proof (Z.mod_pos_bound z (2 ^ 32) ltac:(lia)) as Hr.
  pose proof (Z.div_mod z (2 ^ 32) ltac:(lia)) as Hz.
  destruct (Z.leb_spec (2 ^ 31) (z mod 2 ^ 32)).
  - rewrite <- (Z.mod_unique_pos (z + 2 ^ 31) (2 ^ 32) (z / 2 ^ 32 + 1)
                  (z mod 2 ^ 32 - 2 ^ 31)); lia.
  - rewrite <- (Z.mod_unique_pos (z + 2 ^ 31) (2 ^ 32) (z / 2 ^ 32)
                  (z mod 2 ^ 32 + 2 ^ 31)); lia.
Qed.

Lemma wrap32_range z : - 2 ^ 31 <= wrap32 z < 2 ^ 31.
Proof.
  unfold wrap32.
  pose proof (Z.mod_pos_bound (z + 2 ^ 31) (2 ^ 32) ltac:(lia)). lia.
Qed.

Lemma wrap32_shift z k : wrap32 (z + k * 2 ^ 32) = wrap32 z.
Proof.
  unfold wrap32.
  replace (z + k * 2 ^ 32 + 2 ^ 31) with (z + 2 ^ 31 + k * 2 ^ 32) by lia.
  rewrite Z_mod_plus_full. reflexivity.
Qed.

Lemma wrap32_multiple z : exists k, wrap32 z = z + k * 2 ^ 32.
Proof.
  unfold wrap32.
  pose proof (Z.div_mod (z + 2 ^ 31) (2 ^ 32) ltac:(lia)) as Hz.
  exists (- ((z + 2 ^ 31) / 2 ^ 32)). lia.
Qed.

(** One round of the constructor's loop is one round of the
    specification's: wrapping the shifted value first changes nothing once
    the sum is wrapped. *)
Lemma hash_step_wrap32 h c : hash_step h c = wrap32 (Z.shiftl h 5 - h + c).
Proof.
  unfold hash_step, js_or, js_shl. cbv zeta.
  change (ToInt32 0) with 0. rewrite Z.lor_0_r.
  change (5 mod 32) with 5.
  rewrite !ToInt32_wrap32, !Z.shiftl_mul_pow2 by lia.
  destruct (wrap32_multiple h) as [k1 Hk1].
  destruct (wrap32_multiple (wrap32 h * 2 ^ 5)) as [k2 Hk2].
  rewrite Hk2, Hk1.
  replace ((h + k1 * 2 ^ 32) * 2 ^ 5 + k2 * 2 ^ 32 - h + c)
    with (h * 2 ^ 5 - h + c + (k1 * 2 ^ 5 + k2) * 2 ^ 32) by lia.
  apply wrap32_shift.
Qed.

Lemma fold_hash_step value : forall h,
  fold_left hash_step value h
  = fold_left (fun h c => wrap32 (Z.shiftl h 5 - h + c)) value h.
Proof.
  induction value as [|c value IH]; intros h; simpl; [reflexivity|].
  rewrite hash_step_wrap32. apply IH.
Qed.

Lemma fold_hash_step_range value : forall h,
  - 2 ^ 31 <= h < 2 ^ 31 ->
  - 2 ^ 31 <= fold_left hash_step value h < 2 ^ 31.
Proof.
  induction value as [|c value IH]; intros h Hh; simpl; [assumption|].
  apply IH. rewrite hash_step_wrap32. apply wrap32_range.
Qed.

(** The five kinds are what [values()] lists, with ordinals 0 to 4, and
    [ord()] answers for each of them. *)
Lemma kind_ordinal kind :
  In kind (Enum.values_of CommandType.loaded CommandType.cls) ->
  Enum.ord CommandType.loaded kind = Ok (Enum.ord_field kind)
  /\ 0 <= Enum.ord_field kind <= 4.
Proof.
  intros H. vm_compute in H.
  destruct H as [<-|[<-|[<-|[<-|[<-|[]]]]]];
    (split; [vm_compute; reflexivity | simpl; lia]).
Qed.

Lemma new_Command_hash kind raw c :
  new_Command kind raw = Ok c ->
  type c = kind /\ value c = trim raw
  /\ hashCode c
     = fold_left hash_step (trim raw)
         (js_shl (Enum.ord_field kind) 5 - Enum.ord_field kind).
Proof.
  unfold new_Command, Enum.ord.
  destruct (negb _); simpl; [discriminate|].
  intros H; inversion H; subst; simpl. auto.
Qed.

(** ** The fingerprint of a command *)

Lemma js_shl_small o : 0 <= o <= 4 -> js_shl o 5 = Z.shiftl o 5.
Proof.
  intros H.
  assert (o = 0 \/ o = 1 \/ o = 2 \/ o = 3 \/ o = 4) as Ho by lia.
  destruct Ho as [->|[->|[->|[->| ->]]]]; reflexivity.
Qed.

(** C2: for each of the five kinds and every value string the constructor
    succeeds, stores the trimmed value, and computes as hash exactly the
    fingerprint of section 4.3 on the kind's ordinal and the trimmed value
    (shift and subtract, add the character code, wrap to a signed 32-bit
    integer after every character), a number in the signed 32-bit range;
    the ordinals of ORIGIN, RUN, COPY, WORKDIR and ENTRYPOINT are 0 to 4;
    and two commands whose kinds have the same ordinal and whose values trim
    to the same string carry the same hash. *)
Theorem fingerprint_reproducible :
  (forall kind raw,
      In kind (Enum.values_of CommandType.loaded CommandType.cls) ->
      exists c,
        new_Command kind raw = Ok c
        /\ type c = kind
        /\ value c = trim raw
        /\ hashCode c = fingerprint (Enum.ord_field kind) (trim raw)
        /\ - 2 ^ 31 <= hashCode c < 2 ^ 31)
  /\ option_map (Enum.ord CommandType.loaded) CommandType.ORIGIN
     = Some (Ok 0)
  /\ option_map (Enum.ord CommandType.loaded) CommandType.RUN
     = Some (Ok 1)
  /\ option_map (Enum.ord CommandType.loaded) CommandType.COPY
     = Some (Ok 2)
  /\ option_map (Enum.ord CommandType.loaded) CommandType.WORKDIR
     = Some (Ok 3)
  /\ option_map (Enum.ord CommandType.loaded) CommandType.ENTRYPOINT
     = Some (Ok 4)
  /\ (forall k1 k2 raw1 raw2 c1 c2,
      new_Command k1 raw1 = Ok c1 ->
      new_Command k2 raw2 = Ok c2 ->
      Enum.ord_field k1 = Enum.ord_field k2 ->
      trim raw1 = trim raw2 ->
      hashCode c1 = hashCode c2).
Proof.
  split; [|repeat (split; [vm_compute; reflexivity|])].
  - intros kind raw Hin.
    destruct (kind_ordinal kind Hin) as [Hord Hrange].
    unfold new_Command. rewrite Hord. cbn [bind].
    eexists; split; [reflexivity|]. cbn [type value hashCode].
    split; [reflexivity|]. split; [reflexivity|].
    rewrite js_shl_small by assumption. split.
    + unfold fingerprint. cbv zeta. apply fold_hash_step.
    + apply fold_hash_step_range. rewrite Z.shiftl_mul_pow2 by lia. lia.
  - intros k1 k2 raw1 raw2 c1 c2 H1 H2 Ho Ht.
    apply new_Command_hash in H1 as (_ & _ & ->).
    apply new_Command_hash in H2 as (_ & _ & ->).
    rewrite Ho, Ht. reflexivity.
Qed.

Lemma fingerprint_reproducible_witness :
  exists c c' k,
    CommandType.fromToken (js "FROM") = Some k
    /\ In k (Enum.values_of CommandType.loaded CommandType.cls)
    /\ new_Command k (js "  ubuntu:20.04 ") = Ok c
    /\ new_Command k (js "ubuntu:20.04\n") = Ok c'
    /\ value c = js "ubuntu:20.04"
    /\ hashCode c = fingerprint 0 (js "ubuntu:20.04")
    /\ hashCode c = -2084109983
    /\ hashCode c = hashCode c'.
Proof.
  pose (k := {| Enum.constructor := CommandType.cls;
                Enum.ord_field := 0;
                Enum.fields := [js "FROM"] |} : CommandType.t).
  assert (In k (Enum.values_of CommandType.loaded CommandType.cls)) as Hin
    by (vm_compute; left; reflexivity).
  destruct (proj1 fingerprint_reproducible k (js "  ubuntu:20.04 ") Hin)
    as (c & Hc & _ & Hv & Hh & _).
  destruct (proj1 fingerprint_reproducible k (js "ubuntu:20.04\n") Hin)
    as (c' & Hc' & _).
  exists c, c', k.
  split; [vm_compute; reflexivity|]. split; [exact Hin|].
  split; [exact Hc|]. split; [exact Hc'|].
  split; [rewrite Hv; vm_compute; reflexivity|].
  split; [rewrite Hh; vm_compute; reflexivity|].
  split; [rewrite Hh; vm_compute; reflexivity|].
  apply (proj2 (proj2 (proj2 (proj2 (proj2 (proj2 fingerprint_reproducible)))))
           k k (js "  ubuntu:20.04 ") (js "ubuntu:20.04\n") c c' Hc Hc');
    reflexivity.
Defined.

(** ** Scanning one line *)

Section Scanning.
Import Parser.

Lemma skip_spaces_stop c rest :
  c <> SPACE -> skip_spaces (c :: rest) = c :: rest.
Proof.
  intros H. simpl.
  destruct (Z.eqb_spec c SPACE); [contradiction|reflexivity].
Qed.

Lemma skip_spaces_app sp rest :
  spaces sp = true -> skip_spaces (sp ++ rest) = skip_spaces rest.
Proof.
  induction sp as [|c sp IH]; simpl; [reflexivity|].
  intros H. apply andb_prop in H as [Hc Hsp]. rewrite Hc. auto.
Qed.

Lemma token_char_inv c :
  token_char c = true -> c <> SPACE /\ c <> HASH /\ c <> NEWLINE.
Proof.
  unfold token_char. intros H.
  apply andb_prop in H as [H H3]. apply andb_prop in H as [H1 H2].
  apply negb_true_iff in H1, H2, H3.
  apply Z.eqb_neq in H1, H2, H3. auto.
Qed.

Lemma token_inv tok :
  token tok = true ->
  exists c tok', tok = c :: tok' /\ token_char c = true
                 /\ forallb token_char tok = true.
Proof.
  unfold token. intros H. apply andb_prop in H as [Hl Hall].
  destruct tok as [|c tok']; [discriminate|].
  exists c, tok'. simpl in Hall.
  pose proof Hall as Hall'. apply andb_prop in Hall' as [Hc _]. auto.
Qed.

(** The token loop appends a run of token characters to the token. *)
Lemma read_cmd_token tok : forall rest cmd line,
  forallb token_char tok = true ->
  read_cmd (tok ++ rest) cmd line = read_cmd rest (cmd ++ tok) line.
Proof.
  induction tok as [|c tok IH]; intros rest cmd line H; simpl.
  - rewrite app_nil_r. reflexivity.
  - simpl in H. apply andb_prop in H as [Hc Htok].
    destruct (token_char_inv c Hc) as (H1 & H2 & H3).
    apply Z.eqb_neq in H1, H2, H3. rewrite H1, H2, H3.
    rewrite IH by assumption. rewrite <- app_assoc. reflexivity.
Qed.

(** A round that finds a token after the leading spaces goes through
    [scan_line] and [finish_line]. *)
Lemma iteration_token sp tok rest line result :
  spaces sp = true -> token tok = true ->
  iteration (sp ++ tok ++ rest) line result
  = match scan_line (tok ++ rest) line with
    | Throw e => Raise e
    | Ok (cmd, args, rest', line') =>
        match finish_line cmd args line' result with
        | Throw e => Raise e
        | Ok result' => Continue rest' line' result'
        end
    end.
Proof.
  intros Hsp Htok. unfold iteration.
  rewrite skip_spaces_app by assumption.
  destruct (token_inv tok Htok) as (c & tok' & -> & Hc & _).
  destruct (token_char_inv c Hc) as (H1 & H2 & H3).
  rewrite <- app_comm_cons. rewrite skip_spaces_stop by assumption.
  apply Z.eqb_neq in H3. rewrite H3. reflexivity.
Qed.

Lemma scan_line_token tok rest line :
  token tok = true ->
  scan_line (tok ++ rest) line
  = bind (read_cmd rest tok line)
      (fun '(cmd, rest, skip) =>
         if negb skip then
           let rest := skip_spaces rest in
           match rest with
           | [] => Throw (ExpectedValueAt cmd line)
           | c :: _ =>
               if c =? NEWLINE then Throw (ExpectedValueAt cmd line)
               else
                 bind (read_args rest [] line)
                   (fun '(args, rest, line) => Ok (cmd, args, rest, line))
           end
         else Ok (cmd, [], rest, line)).
Proof.
  intros Htok. destruct (token_inv tok Htok) as (c & tok' & E & _ & Hall).
  unfold scan_line. rewrite read_cmd_token by assumption. reflexivity.
Qed.

Lemma trim_blank ws : forallb is_trimmable ws = true -> trim ws = [].
Proof.
  intros H. unfold trim.
  assert (trim_start ws = []) as ->; [|reflexivity].
  induction ws as [|c ws IH]; simpl; [reflexivity|].
  simpl in H. apply andb_prop in H as [Hc Hws]. rewrite Hc. auto.
Qed.

Lemma blank_char_inv c :
  blank_char c = true ->
  is_trimmable c = true /\ c <> NEWLINE /\ c <> BACKSLASH /\ c <> HASH.
Proof.
  unfold blank_char. intros H. apply andb_prop in H as [Ht Hn].
  apply negb_true_iff, Z.eqb_neq in Hn.
  repeat split; try assumption; intros ->; discriminate.
Qed.

(** The argument loop appends a run of blank characters to the argument
    and stops at the end of the line. *)
Lemma read_args_blank ws : forall tail args line,
  forallb blank_char ws = true -> line_end tail = true ->
  read_args (ws ++ tail) args line = Ok (args ++ ws, tail, line).
Proof.
  induction ws as [|c ws IH]; intros tail args line H Ht; simpl.
  - rewrite app_nil_r. destruct tail as [|d tail]; [reflexivity|].
    simpl in Ht. simpl. rewrite Ht. reflexivity.
  - simpl in H. apply andb_prop in H as [Hc Hws].
    destruct (blank_char_inv c Hc) as (_ & H1 & H2 & H3).
    apply Z.eqb_neq in H1, H2, H3. rewrite H1, H2, H3.
    rewrite IH by assumption. rewrite <- app_assoc. reflexivity.
Qed.

Lemma skip_spaces_blank ws tail :
  forallb blank_char ws = true ->
  exists ws', skip_spaces (ws ++ tail) = skip_spaces (ws' ++ tail)
              /\ forallb blank_char ws' = true
              /\ match ws' with [] => True | c :: _ => c <> SPACE end.
Proof.
  induction ws as [|c ws IH]; intros H.
  - exists []. auto.
  - simpl in H. apply andb_prop in H as [Hc Hws].
    destruct (Z.eqb_spec c SPACE) as [->|Hne].
    + destruct (IH Hws) as (ws' & E & Hb & Hh). exists ws'. auto.
    + exists (c :: ws). simpl. rewrite Hc, Hws. auto.
Qed.

End Scanning.

Lemma rounds_head n : forall text rest line result,
  rounds n text = Some (rest, line, result) -> head text rest line result.
Proof.
  induction n as [|n IH]; intros text rest line result H; simpl in H.
  - inversion H; subst. apply head_start.
  - destruct (rounds n text) as [[[r l] res]|] eqn:E; [|discriminate].
    destruct (Parser.iteration r l res) as [r' l' res'| |] eqn:Ei;
      try discriminate.
    inversion H; subst. eapply head_next; [apply IH; exact E|exact Ei].
Qed.

(** ** A token without an argument *)

Section MissingArgument.
Import Parser.

Lemma skip_spaces_line_end tail :
  line_end tail = true -> skip_spaces tail = tail.
Proof.
  destruct tail as [|c tail]; [reflexivity|]. simpl. intros H.
  apply Z.eqb_eq in H. subst c. reflexivity.
Qed.

Lemma finish_line_no_args cmd args line result :
  cmd <> [] -> trim args = [] ->
  finish_line cmd args line result = Throw (ExpectedValueOn cmd line).
Proof.
  intros Hc Ha. unfold finish_line. rewrite Ha.
  destruct cmd; [contradiction|reflexivity].
Qed.

Lemma finish_line_unknown cmd args line result :
  cmd <> [] -> trim args <> [] -> CommandType.fromToken cmd = None ->
  finish_line cmd args line result = Throw (InvalidCommand cmd line).
Proof.
  intros Hc Ha Hf. unfold finish_line. rewrite Hf.
  destruct cmd; [contradiction|].
  destruct (trim args); [contradiction|reflexivity].
Qed.

Lemma token_nonempty tok : token tok = true -> tok <> [].
Proof. intros H ->. discriminate. Qed.

(** Line 210. *)
Lemma iteration_token_newline sp tok more line result :
  spaces sp = true -> token tok = true ->
  iteration (sp ++ tok ++ NEWLINE :: more) line result
  = Raise (ExpectedValueOn tok line).
Proof.
  intros Hsp Htok. rewrite iteration_token, scan_line_token by assumption.
  reflexivity.
Qed.

(** Line 226. *)
Lemma iteration_token_spaces sp tok sp' tail line result :
  spaces sp = true -> token tok = true ->
  spaces sp' = true -> line_end tail = true ->
  sp' <> [] \/ tail = [] ->
  iteration (sp ++ tok ++ sp' ++ tail) line result
  = Raise (ExpectedValueAt tok line).
Proof.
  intros Hsp Htok Hsp' Hend Hcase.
  rewrite iteration_token, scan_line_token by assumption.
  assert (read_cmd (sp' ++ tail) tok line = Ok (tok, sp' ++ tail, false))
    as ->.
  { destruct sp' as [|c sp''].
    - destruct Hcase as [?| ->]; [contradiction|reflexivity].
    - simpl in Hsp'. apply andb_prop in Hsp' as [Hc _].
      simpl. rewrite Hc. reflexivity. }
  cbn [bind negb]. cbv zeta.
  rewrite skip_spaces_app, skip_spaces_line_end by assumption.
  destruct tail as [|c tail]; [reflexivity|].
  simpl in Hend. rewrite Hend. reflexivity.
Qed.

(** Lines 226 and 262. *)
Lemma iteration_blank_argument sp tok ws tail line result :
  spaces sp = true -> token tok = true ->
  forallb blank_char ws = true -> line_end tail = true ->
  exists e,
    iteration (sp ++ tok ++ SPACE :: ws ++ tail) line result = Raise e
    /\ kind_of e = MissingArgument.
Proof.
  intros Hsp Htok Hws Hend.
  rewrite iteration_token, scan_line_token by assumption.
  cbn [read_cmd]. change (SPACE =? SPACE) with true. cbn [bind negb].
  cbv zeta. cbn [skip_spaces]. change (SPACE =? SPACE) with true.
  cbv iota.
  destruct (skip_spaces_blank ws tail Hws) as (ws' & -> & Hws' & Hhd).
  destruct ws' as [|c ws''].
  - simpl app. rewrite skip_spaces_line_end by assumption.
    exists (ExpectedValueAt tok line). split; [|reflexivity].
    destruct tail as [|c tail]; [reflexivity|].
    simpl in Hend. rewrite Hend. reflexivity.
  - rewrite <- app_comm_cons, skip_spaces_stop by assumption.
    pose proof Hws' as Hc. simpl in Hc. apply andb_prop in Hc as [Hc _].
    destruct (blank_char_inv c Hc) as (_ & Hn & _).
    apply Z.eqb_neq in Hn. rewrite Hn.
    rewrite app_comm_cons, read_args_blank by assumption.
    cbn [bind app]. rewrite finish_line_no_args.
    + eexists; split; reflexivity.
    + apply token_nonempty; assumption.
    + apply trim_blank. clear - Hws'.
      induction (c :: ws'') as [|d l IH]; [reflexivity|].
      simpl in *. apply andb_prop in Hws' as [Hd Hl].
      apply blank_char_inv in Hd as [-> _]. auto.
Qed.

(** Line 262. *)
Lemma iteration_empty_argument rest line result c rest0 cmd args rest' line' :
  skip_spaces rest = c :: rest0 -> c <> NEWLINE ->
  scan_line (c :: rest0) line = Ok (cmd, args, rest', line') ->
  cmd <> [] -> trim args = [] ->
  iteration rest line result = Raise (ExpectedValueOn cmd line').
Proof.
  intros Hs Hc Hscan Hcmd Hargs. unfold iteration. rewrite Hs.
  apply Z.eqb_neq in Hc. rewrite Hc, Hscan.
  rewrite finish_line_no_args by assumption. reflexivity.
Qed.

(** Line 271. *)
Lemma iteration_unknown rest line result c rest0 cmd args rest' line' :
  skip_spaces rest = c :: rest0 -> c <> NEWLINE ->
  scan_line (c :: rest0) line = Ok (cmd, args, rest', line') ->
  cmd <> [] -> trim args <> [] -> CommandType.fromToken cmd = None ->
  iteration rest line result = Raise (InvalidCommand cmd line').
Proof.
  intros Hs Hc Hscan Hcmd Hargs Hf. unfold iteration. rewrite Hs.
  apply Z.eqb_neq in Hc. rewrite Hc, Hscan.
  rewrite finish_line_unknown by assumption. reflexivity.
Qed.

End MissingArgument.

(** C5: in whatever round of the outer loop it happens, a token immediately
    followed by a line feed, a token followed only by spaces up to a line
    feed or the end of the input, a token whose argument holds only
    whitespace, and in general any round that has read a non-empty token
    when the accumulated argument trims to the empty string, make [parse]
    throw the "Expected to see a value" error, which the specification
    calls MissingArgument; so does the input "RUN\n". *)
Theorem missing_argument text rest line result :
  head text rest line result ->
  (forall sp tok more,
      spaces sp = true -> token tok = true ->
      rest = sp ++ tok ++ NEWLINE :: more ->
      Parser.parse text = Some (Throw (ExpectedValueOn tok line)))
  /\ (forall sp tok sp' tail,
      spaces sp = true -> token tok = true ->
      spaces sp' = true -> line_end tail = true ->
      sp' <> [] \/ tail = [] ->
      rest = sp ++ tok ++ sp' ++ tail ->
      Parser.parse text = Some (Throw (ExpectedValueAt tok line)))
  /\ (forall sp tok ws tail,
      spaces sp = true -> token tok = true ->
      forallb blank_char ws = true -> line_end tail = true ->
      rest = sp ++ tok ++ SPACE :: ws ++ tail ->
      fails_with text MissingArgument)
  /\ (forall c rest0 cmd args rest' line',
      Parser.skip_spaces rest = c :: rest0 -> c <> NEWLINE ->
      Parser.scan_line (c :: rest0) line = Ok (cmd, args, rest', line') ->
      cmd <> [] -> trim args = [] ->
      Parser.parse text = Some (Throw (ExpectedValueOn cmd line')))
  /\ Parser.parse (js "RUN\n") = Some (Throw (ExpectedValueOn (js "RUN") 1))
  /\ (forall cmd l,
      kind_of (ExpectedValueOn cmd l) = MissingArgument
      /\ kind_of (ExpectedValueAt cmd l) = MissingArgument).
Proof.
  intros Hh. split; [|split; [|split; [|split; [|split]]]].
  - intros sp tok more Hsp Htok ->.
    eapply head_raise; [exact Hh|]. apply iteration_token_newline; assumption.
  - intros sp tok sp' tail Hsp Htok Hsp' Hend Hcase ->.
    eapply head_raise; [exact Hh|]. apply iteration_token_spaces; assumption.
  - intros sp tok ws tail Hsp Htok Hws Hend ->.
    destruct (iteration_blank_argument sp tok ws tail line result)
      as (e & He & Hk); try assumption.
    exists e. split; [|exact Hk]. eapply head_raise; eassumption.
  - intros c rest0 cmd args rest' line' Hs Hc Hscan Hcmd Hargs.
    eapply head_raise; [exact Hh|].
    eapply iteration_empty_argument; eassumption.
  - vm_compute. reflexivity.
  - intros cmd l. split; reflexivity.
Qed.

Lemma missing_argument_witness :
  Parser.parse (js "FROM a\nRUN\n")
  = Some (Throw (ExpectedValueOn (js "RUN") 2))
  /\ Parser.parse (js "FROM a\n  RUN  ")
     = Some (Throw (ExpectedValueAt (js "RUN") 2))
  /\ fails_with (js "FROM a\nRUN  \t \nRUN x") MissingArgument
  /\ Parser.parse (js "FROM a\nRUN#x\n")
     = Some (Throw (ExpectedValueOn (js "RUN") 2)).
Proof.
  split; [|split; [|split]].
  - assert (head (js "FROM a\nRUN\n") (js "RUN\n") 2 [from_a]) as Hh
      by (apply (rounds_head 2); vm_compute; reflexivity).
    apply (proj1 (missing_argument _ _ _ _ Hh) [] (js "RUN") []);
      reflexivity.
  - assert (head (js "FROM a\n  RUN  ") (js "  RUN  ") 2 [from_a]) as Hh
      by (apply (rounds_head 2); vm_compute; reflexivity).
    apply (proj1 (proj2 (missing_argument _ _ _ _ Hh))
             (js "  ") (js "RUN") (js "  ") []);
      try reflexivity.
    left; discriminate.
  - assert (head (js "FROM a\nRUN  \t \nRUN x") (js "RUN  \t \nRUN x") 2
              [from_a]) as Hh
      by (apply (rounds_head 2); vm_compute; reflexivity).
    apply (proj1 (proj2 (proj2 (missing_argument _ _ _ _ Hh)))
             [] (js "RUN") (js " \t ") (js "\nRUN x"));
      reflexivity.
  - assert (head (js "FROM a\nRUN#x\n") (js "RUN#x\n") 2 [from_a]) as Hh
      by (apply (rounds_head 2); vm_compute; reflexivity).
    apply (proj1 (proj2 (proj2 (proj2 (missing_argument _ _ _ _ Hh))))
             82 (js "UN#x\n") (js "RUN") [] (js "\n") 2);
      try reflexivity; discriminate.
Defined.

(** ** The checks on the whole document *)

(** C4: when the scan ends with a non-empty sequence of commands whose first
    command is not of kind ORIGIN, [parse] throws "Input definition has no
    origin.", which the specification calls MissingOrigin; so does the input
    "RUN x\n". *)
Theorem missing_origin :
  (forall text line c cs,
      Parser.scan text = Some (Ok (line, c :: cs)) ->
      same_object (type c) CommandType.ORIGIN = false ->
      Parser.parse text = Some (Throw NoOrigin))
  /\ Parser.parse (js "RUN x\n") = Some (Throw NoOrigin)
  /\ kind_of NoOrigin = MissingOrigin.
Proof.
  split; [|split; [vm_compute; reflexivity|reflexivity]].
  intros text line c cs Hscan Hc.
  unfold Parser.parse. rewrite Hscan.
  unfold Parser.validate. rewrite Hc. reflexivity.
Qed.

Lemma missing_origin_witness :
  exists line c cs,
    Parser.scan (js "COPY a b\nFROM x\n") = Some (Ok (line, c :: cs))
    /\ same_object (type c) CommandType.ORIGIN = false
    /\ Parser.parse (js "COPY a b\nFROM x\n") = Some (Throw NoOrigin).
Proof.
  destruct (Parser.scan (js "COPY a b\nFROM x\n")) as [[[line [|c cs]]|e]|]
    eqn:E; try (vm_compute in E; discriminate).
  assert (same_object (type c) CommandType.ORIGIN = false) as Hc
    by (vm_compute in E; inversion E; subst; vm_compute; reflexivity).
  exists line, c, cs. split; [reflexivity|]. split; [exact Hc|].
  exact (proj1 missing_origin _ line c cs E Hc).
Defined.

(** Whatever sequence passes the two origin checks and holds more than one
    ENTRYPOINT command is rejected with the message of the second origin
    check. *)
Lemma validate_entrypoints c cs :
  same_object (type c) CommandType.ORIGIN = true ->
  (Parser.count CommandType.ORIGIN (c :: cs) <= 1)%nat ->
  (1 < Parser.count CommandType.ENTRYPOINT (c :: cs))%nat ->
  Parser.validate (c :: cs) = Throw MultipleOrigins.
Proof.
  intros Hc Ho He. unfold Parser.validate. rewrite Hc.
  apply Nat.ltb_ge in Ho. apply Nat.ltb_lt in He. rewrite Ho, He.
  reflexivity.
Qed.

(** C3: a document that starts with its only ORIGIN line and holds two
    ENTRYPOINT lines is rejected by [parse] with the very error that a
    document with two ORIGIN lines is rejected with, "Input definition has
    multiple origins."; nothing tells the two failures apart. *)
Theorem multiple_entrypoints_reported_as_origins :
  (forall text line c cs,
      Parser.scan text = Some (Ok (line, c :: cs)) ->
      same_object (type c) CommandType.ORIGIN = true ->
      (Parser.count CommandType.ORIGIN (c :: cs) <= 1)%nat ->
      (1 < Parser.count CommandType.ENTRYPOINT (c :: cs))%nat ->
      Parser.parse text = Some (Throw MultipleOrigins))
  /\ Parser.parse (js "FROM a\nCMD x\nENTRYPOINT y\n")
     = Some (Throw MultipleOrigins)
  /\ Parser.parse (js "FROM a\nFROM b\n") = Some (Throw MultipleOrigins)
  /\ kind_of MultipleOrigins = MultipleOrigin.
Proof.
  split; [|repeat split; vm_compute; reflexivity].
  intros text line c cs Hscan Hc Ho He.
  unfold Parser.parse. rewrite Hscan. f_equal.
  apply validate_entrypoints; assumption.
Qed.

Lemma multiple_entrypoints_reported_as_origins_witness :
  exists line c cs,
    Parser.scan (js "FROM a\nCMD x\nRUN z\nCMD y") = Some (Ok (line, c :: cs))
    /\ same_object (type c) CommandType.ORIGIN = true
    /\ Parser.count CommandType.ORIGIN (c :: cs) = 1%nat
    /\ Parser.count CommandType.ENTRYPOINT (c :: cs) = 2%nat
    /\ Parser.parse (js "FROM a\nCMD x\nRUN z\nCMD y")
       = Some (Throw MultipleOrigins).
Proof.
  destruct (Parser.scan (js "FROM a\nCMD x\nRUN z\nCMD y"))
    as [[[line [|c cs]]|e]|] eqn:E; try (vm_compute in E; discriminate).
  assert (same_object (type c) CommandType.ORIGIN = true
          /\ Parser.count CommandType.ORIGIN (c :: cs) = 1%nat
          /\ Parser.count CommandType.ENTRYPOINT (c :: cs) = 2%nat)
    as (Hc & Ho & He)
    by (vm_compute in E; inversion E; subst; repeat split; vm_compute;
        reflexivity).
  exists line, c, cs. split; [reflexivity|]. split; [exact Hc|].
  split; [exact Ho|]. split; [exact He|].
  apply (proj1 multiple_entrypoints_reported_as_origins _ line c cs E Hc).
  - rewrite Ho. apply Nat.le_refl.
  - rewrite He. apply Nat.lt_succ_diag_r.
Defined.

(** ** An escaped line feed *)

(** C1, as stated, fails: the COPY command of that input does not carry the
    value "x y". *)
Lemma continuation_value_is_not_x_y :
  ~ (exists c1 c2,
        Parser.parse (js "FROM a\nCOPY x \\\ny\n") = Some (Ok [c1; c2])
        /\ value c2 = js "x y").
Proof.
  intros (c1 & c2 & H & Hv). vm_compute in H. inversion H; subst.
  vm_compute in Hv. discriminate.
Qed.

(** C1, amended: parsing "FROM a\nCOPY x \\\ny\n" succeeds with an ORIGIN
    command and a COPY command whose value is "x \ny": the escaped line feed
    is kept in the argument, between the space and the "y", so that the
    argument spans the two physical lines; the round that reads the COPY
    line starts with the line counter at 2 and ends with it at 3. *)
Theorem continuation_keeps_line_feed :
  let text := js "FROM a\nCOPY x \\\ny\n" in
  exists copy,
    Parser.parse text = Some (Ok [from_a; copy])
    /\ same_object (type copy) CommandType.COPY = true
    /\ value copy = js "x \ny"
    /\ value copy = [120; 32; 10; 121]
    /\ head text (js "COPY x \\\ny\n") 2 [from_a]
    /\ Parser.read_args (js "x \\\ny\n") [] 2 = Ok (js "x \ny", js "\n", 3)
    /\ Parser.iteration (js "COPY x \\\ny\n") 2 [from_a]
       = Parser.Continue (js "\n") 3 [from_a; copy].
Proof.
  intros text.
  exists {| type := {| Enum.constructor := CommandType.cls;
                       Enum.ord_field := 2;
                       Enum.fields := [js "COPY"] |};
            value := js "x \ny";
            hashCode := 60864405 |}.
  split; [vm_compute; reflexivity|].
  split; [vm_compute; reflexivity|].
  split; [reflexivity|]. split; [reflexivity|].
  split; [apply (rounds_head 2); vm_compute; reflexivity|].
  split; vm_compute; reflexivity.
Qed.

(** ** Resolving a token *)

Lemma find_first {A : Type} (p : A -> bool) (l : list A) :
  match List.find p l with
  | Some x =>
      exists before after,
        l = before ++ x :: after /\ p x = true
        /\ Forall (fun y => p y = false) before
  | None => Forall (fun y => p y = false) l
  end.
Proof.
  induction l as [|a l IH]; simpl; [constructor|].
  destruct (p a) eqn:E.
  - exists [], l. auto.
  - destruct (List.find p l) as [x|].
    + destruct IH as (before & after & -> & Hx & Hb).
      exists (a :: before), after. auto.
    + constructor; assumption.
Qed.

Lemma has_token tk (tks : list jsstring) :
  existsb (fun t => bool_decide (t = tk)) tks = true <-> In tk tks.
Proof.
  rewrite existsb_exists. split.
  - intros (t & Hin & Ht). apply bool_decide_eq_true in Ht. subst; assumption.
  - intros Hin. exists tk. split; [assumption|].
    apply bool_decide_eq_true. reflexivity.
Qed.

Lemma has_no_token tk (tks : list jsstring) :
  existsb (fun t => bool_decide (t = tk)) tks = false <-> ~ In tk tks.
Proof.
  rewrite <- has_token. destruct (existsb _ tks); split; intros H;
    try reflexivity; try discriminate; try congruence.
Qed.

Lemma fromToken_resolveToken tk :
  option_map Enum.ord_field (CommandType.fromToken tk) = resolveToken tk.
Proof.
  unfold CommandType.fromToken, resolveToken, CommandType.tokens.
  set (vs := Enum.values_of CommandType.loaded CommandType.cls).
  vm_compute in vs. subst vs. unfold registry.
  repeat match goal with
         | |- context [js ?s] =>
             let v := eval vm_compute in (js s) in change (js s) with v
         end.
  cbn [List.find existsb Enum.fields snd orb].
  repeat match goal with
         | |- context [bool_decide ?P] => destruct (bool_decide P)
         end; reflexivity.
Qed.

(** C6: [values()] lists the five kinds in registration order, each with its
    alias tokens; [fromToken] returns the first of them one of whose tokens
    equals the given token code unit for code unit, and nothing when there
    is none, which is the specification's [resolveToken]; tokens are not
    folded or trimmed, so "from" resolves to nothing; and a round that has
    read a token that resolves to nothing, with an argument that does not
    trim to the empty string, makes [parse] throw "Invalid command", which
    the specification calls UnknownCommand. *)
Theorem token_resolution :
  map (fun k => (Enum.ord_field k, CommandType.tokens k))
      (Enum.values_of CommandType.loaded CommandType.cls) = registry
  /\ [CommandType.ORIGIN; CommandType.RUN; CommandType.COPY;
      CommandType.WORKDIR; CommandType.ENTRYPOINT]
     = map Some (Enum.values_of CommandType.loaded CommandType.cls)
  /\ (forall tk,
      match CommandType.fromToken tk with
      | Some k =>
          exists before after,
            Enum.values_of CommandType.loaded CommandType.cls
            = before ++ k :: after
            /\ In tk (CommandType.tokens k)
            /\ Forall (fun k' => ~ In tk (CommandType.tokens k')) before
      | None =>
          Forall (fun k' => ~ In tk (CommandType.tokens k'))
            (Enum.values_of CommandType.loaded CommandType.cls)
      end)
  /\ (forall tk,
      option_map Enum.ord_field (CommandType.fromToken tk) = resolveToken tk)
  /\ CommandType.fromToken (js "FROM") = CommandType.ORIGIN
  /\ CommandType.fromToken (js "from") = None
  /\ CommandType.fromToken (js "From") = None
  /\ CommandType.fromToken (js "FROM\t") = None
  /\ (forall text rest line result c rest0 cmd args rest' line',
      head text rest line result ->
      Parser.skip_spaces rest = c :: rest0 -> c <> NEWLINE ->
      Parser.scan_line (c :: rest0) line = Ok (cmd, args, rest', line') ->
      cmd <> [] -> trim args <> [] ->
      CommandType.fromToken cmd = None ->
      Parser.parse text = Some (Throw (InvalidCommand cmd line')))
  /\ (forall cmd l, kind_of (InvalidCommand cmd l) = UnknownCommand).
Proof.
  split; [vm_compute; reflexivity|].
  split; [vm_compute; reflexivity|].
  split.
  { intros tk. unfold CommandType.fromToken.
    match goal with
    | |- context [List.find ?p ?l] => pose proof (find_first p l) as H
    end.
    destruct (List.find _ _) as [k|].
    - destruct H as (before & after & E & Hk & Hb).
      exists before, after. split; [exact E|]. split.
      + apply has_token; exact Hk.
      + eapply List.Forall_impl; [|exact Hb]. intros k'. apply has_no_token.
    - eapply List.Forall_impl; [|exact H]. intros k'. apply has_no_token. }
  split; [exact fromToken_resolveToken|].
  do 4 (split; [vm_compute; reflexivity|]).
  split; [|reflexivity].
  intros text rest line result c rest0 cmd args rest' line'
    Hh Hs Hc Hscan Hcmd Hargs Hf.
  eapply head_raise; [exact Hh|].
  eapply iteration_unknown; eassumption.
Qed.

Lemma token_resolution_witness :
  Parser.parse (js "FROM a\nfrom b c\n")
  = Some (Throw (InvalidCommand (js "from") 2)).
Proof.
  assert (head (js "FROM a\nfrom b c\n") (js "from b c\n") 2 [from_a]) as Hh
    by (apply (rounds_head 2); vm_compute; reflexivity).
  destruct token_resolution as (_ & _ & _ & _ & _ & _ & _ & _ & H & _).
  apply (H _ _ _ _ 102 (js "rom b c\n") (js "from") (js "b c") (js "\n") 2 Hh);
    try reflexivity; discriminate.
Defined.

(** ** Documents without commands *)

Section Blank.
Import Parser.

Lemma split_lines_cons text : exists l ls, split_lines text = l :: ls.
Proof.
  destruct text as [|c text]; simpl; [eauto|].
  destruct (c =? NEWLINE); [eauto|].
  destruct (split_lines text); eauto.
Qed.

(** Dropping the rest of a physical line leaves the lines after it. *)
Lemma blank_after_skip_line text : forall l ls,
  split_lines text = l :: ls ->
  forallb blank_or_comment ls = true ->
  blank_document (skip_line text) = true.
Proof.
  induction text as [|c text IH]; intros l ls E Hls; [reflexivity|].
  simpl in E |- *. destruct (c =? NEWLINE) eqn:Ec.
  - inversion E; subst. unfold blank_document. simpl. rewrite Ec.
    simpl. exact Hls.
  - destruct (split_lines_cons text) as (l' & ls' & E').
    rewrite E' in E. inversion E; subst. eapply IH; eauto.
Qed.

(** After its leading spaces a document without commands is at its end,
    at a line feed, or at a comment sign. *)
Lemma blank_document_head text :
  blank_document text = true ->
  match skip_spaces text with
  | [] => True
  | c :: rest =>
      (c = NEWLINE /\ blank_document rest = true)
      \/ (c = HASH /\ blank_document (skip_line (c :: rest)) = true)
  end.
Proof.
  induction text as [|c text IH]; intros H; [exact I|].
  unfold blank_document in H. simpl in H.
  destruct (Z.eqb_spec c NEWLINE) as [->|Hn].
  - simpl in H. left. auto.
  - destruct (split_lines_cons text) as (l & ls & E). rewrite E in H.
    simpl in H. apply andb_prop in H as [Hl Hls].
    unfold blank_or_comment in Hl. simpl in Hl. simpl skip_spaces.
    destruct (Z.eqb_spec c SPACE) as [->|Hs].
    + apply IH. unfold blank_document. rewrite E. simpl.
      rewrite Hls, andb_true_r. exact Hl.
    + right. apply Z.eqb_eq in Hl. split; [exact Hl|].
      simpl. apply Z.eqb_neq in Hn. rewrite Hn.
      eapply blank_after_skip_line; eauto.
Qed.

(** A round on a document without commands leaves the loop or goes on,
    with the result untouched, on a document without commands. *)
Lemma iteration_blank text line result :
  blank_document text = true ->
  iteration text line result = Break line result
  \/ exists text' line',
       iteration text line result = Continue text' line' result
       /\ blank_document text' = true.
Proof.
  intros H. apply blank_document_head in H. unfold iteration.
  destruct (skip_spaces text) as [|c rest]; [left; reflexivity|].
  right. destruct H as [[-> Hb]|[-> Hb]].
  - exists rest, (line + 1). auto.
  - exists (skip_line (HASH :: rest)), line. split; [|exact Hb].
    reflexivity.
Qed.

Lemma loop_blank : forall fuel text line result,
  blank_document text = true ->
  (length text <= fuel)%nat ->
  exists line', loop fuel text line result = Some (Ok (line', result)).
Proof.
  induction fuel as [|fuel IH]; intros text line result Hb Hf.
  - destruct text; [|simpl in Hf; lia]. exists line. reflexivity.
  - destruct text as [|c text]; [exists line; reflexivity|].
    cbn [loop].
    destruct (iteration_blank (c :: text) line result Hb)
      as [->|(text' & line' & E & Hb')]; [eauto|].
    rewrite E. apply IH; [exact Hb'|].
    apply iteration_progress in E. simpl in *. lia.
Qed.

End Blank.

(** C7: a text every physical line of which holds only spaces, or has the
    comment sign as its first character other than a space, parses to the
    empty sequence of commands; so does the empty text; and whenever the
    scan leaves the sequence empty, none of the three checks on the whole
    document throws. *)
Theorem blank_document_parses_to_nothing :
  (forall text,
      blank_document text = true -> Parser.parse text = Some (Ok []))
  /\ Parser.parse [] = Some (Ok [])
  /\ Parser.validate [] = Ok []
  /\ (forall text line,
      Parser.scan text = Some (Ok (line, [])) ->
      Parser.parse text = Some (Ok [])).
Proof.
  split; [|split; [reflexivity|split; [reflexivity|]]].
  - intros text H. unfold Parser.parse, Parser.scan.
    destruct (loop_blank (length text) text 1 [] H (Nat.le_refl _))
      as (line' & ->).
    reflexivity.
  - intros text line H. unfold Parser.parse. rewrite H. reflexivity.
Qed.

Lemma blank_document_parses_to_nothing_witness :
  blank_document (js "\n   \n# FROM a\n  ## RUN x \\\n\n #") = true
  /\ Parser.parse (js "\n   \n# FROM a\n  ## RUN x \\\n\n #") = Some (Ok [])
  /\ Parser.scan (js " #\n") = Some (Ok (2, []))
  /\ Parser.parse (js " #\n") = Some (Ok []).
Proof.
  split; [reflexivity|].
  split; [apply (proj1 blank_document_parses_to_nothing); reflexivity|].
  split; [reflexivity|].
  apply (proj2 (proj2 (proj2 blank_document_parses_to_nothing)) _ 2).
  reflexivity.
Defined.

(** ** The cursor only moves forward *)

Section Suffix.
Import Parser.

Lemma skip_spaces_suffix rest : skip_spaces rest `suffix_of` rest.
Proof.
  induction rest as [|c rest IH]; simpl; [reflexivity|].
  destruct (c =? SPACE); [apply suffix_cons_r; exact IH|reflexivity].
Qed.

Lemma skip_line_suffix rest : skip_line rest `suffix_of` rest.
Proof.
  induction rest as [|c rest IH]; simpl; [reflexivity|].
  destruct (c =? NEWLINE); [reflexivity|apply suffix_cons_r; exact IH].
Qed.

Lemma read_cmd_suffix rest : forall cmd line cmd' rest' skip,
  read_cmd rest cmd line = Ok (cmd', rest', skip) ->
  rest' `suffix_of` rest.
Proof.
  induction rest as [|c rest IH]; simpl; intros cmd line cmd' rest' skip H.
  - inversion H; subst. reflexivity.
  - destruct (c =? SPACE); [inversion H; subst; reflexivity|].
    destruct (c =? HASH).
    { inversion H; subst. apply (skip_line_suffix (c :: rest)). }
    destruct (c =? NEWLINE); [discriminate|].
    apply suffix_cons_r. eapply IH; exact H.
Qed.

Lemma read_args_suffix : forall n rest args line args' rest' line',
  (length rest <= n)%nat ->
  read_args rest args line = Ok (args', rest', line') ->
  rest' `suffix_of` rest.
Proof.
  induction n as [|n IH]; intros rest args line args' rest' line' Hn H.
  - destruct rest; [|simpl in Hn; lia]. inversion H; subst. reflexivity.
  - destruct rest as [|c rest]; [inversion H; subst; reflexivity|].
    simpl in H, Hn.
    destruct (c =? NEWLINE); [inversion H; subst; reflexivity|].
    destruct (c =? BACKSLASH).
    { destruct rest as [|c' rest'']; [discriminate|].
      do 2 apply suffix_cons_r. eapply IH; [|exact H]. simpl in Hn; lia. }
    destruct (c =? HASH).
    { inversion H; subst. apply suffix_cons_r, skip_line_suffix. }
    apply suffix_cons_r. eapply IH; [|exact H]. lia.
Qed.

Lemma scan_line_suffix rest line cmd args rest' line' :
  scan_line rest line = Ok (cmd, args, rest', line') ->
  rest' `suffix_of` rest.
Proof.
  unfold scan_line.
  destruct (read_cmd rest [] line) as [[[cmd0 rest0] skip]|e] eqn:E;
    simpl; [|discriminate].
  apply read_cmd_suffix in E.
  destruct skip; simpl.
  - intros H; inversion H; subst; exact E.
  - pose proof (skip_spaces_suffix rest0) as Hsp.
    destruct (skip_spaces rest0) as [|d rest1]; [discriminate|].
    destruct (d =? NEWLINE); [discriminate|].
    destruct (read_args (d :: rest1) [] line) as [[[a r] l]|e] eqn:E2;
      simpl; [|discriminate].
    intros H; inversion H; subst.
    eapply read_args_suffix in E2; [|reflexivity].
    etransitivity; [exact E2|]. etransitivity; [exact Hsp|exact E].
Qed.

Lemma iteration_suffix rest line result rest' line' result' :
  iteration rest line result = Continue rest' line' result' ->
  rest' `suffix_of` rest.
Proof.
  unfold iteration. pose proof (skip_spaces_suffix rest) as Hsp.
  destruct (skip_spaces rest) as [|c rest1]; [discriminate|].
  destruct (c =? NEWLINE).
  - intros H; inversion H; subst.
    etransitivity; [|exact Hsp]. apply suffix_cons_r. reflexivity.
  - destruct (scan_line (c :: rest1) line) as [[[[cmd args] rest2] line2]|e]
      eqn:E; [|discriminate].
    apply scan_line_suffix in E.
    destruct (finish_line cmd args line2 result); [|discriminate].
    intros H; inversion H; subst. etransitivity; [exact E|exact Hsp].
Qed.

(** What is left to read at the top of the loop is the end of the text. *)
Lemma head_suffix text rest line result :
  head text rest line result -> rest `suffix_of` text.
Proof.
  induction 1 as [|rest line result rest' line' result' _ IH E].
  - reflexivity.
  - etransitivity; [|exact IH]. eapply iteration_suffix; exact E.
Qed.

End Suffix.

(** ** A backslash at the end of the input *)

Section Escape.
Import Parser.

Lemma plain_char_inv c :
  plain_char c = true -> c <> NEWLINE /\ c <> BACKSLASH /\ c <> HASH.
Proof.
  unfold plain_char. intros H.
  apply andb_prop in H as [H H3]. apply andb_prop in H as [H1 H2].
  apply negb_true_iff in H1, H2, H3.
  apply Z.eqb_neq in H1, H2, H3. auto.
Qed.

(** Line 236: the argument loop, having read whole pieces, finds a
    backslash with nothing after it. *)
Lemma read_args_unterminated ps : forall args line,
  forallb well_formed ps = true ->
  read_args (spell ps ++ [BACKSLASH]) args line
  = Throw (InvalidEscaping (line + escaped_newlines ps)).
Proof.
  induction ps as [|[c|c] ps IH]; intros args line H.
  - simpl. rewrite Z.add_0_r. reflexivity.
  - simpl in H. apply andb_prop in H as [Hc Hps].
    destruct (plain_char_inv c Hc) as (H1 & H2 & H3).
    apply Z.eqb_neq in H1, H2, H3.
    simpl. rewrite H1, H2, H3. apply IH; assumption.
  - simpl in H. simpl. rewrite IH by assumption.
    destruct (c =? NEWLINE); do 2 f_equal; lia.
Qed.

Lemma skip_spaces_spell ps :
  forallb well_formed ps = true ->
  exists ps',
    skip_spaces (spell ps ++ [BACKSLASH]) = spell ps' ++ [BACKSLASH]
    /\ forallb well_formed ps' = true
    /\ escaped_newlines ps' = escaped_newlines ps.
Proof.
  induction ps as [|[c|c] ps IH]; intros H.
  - exists []. auto.
  - simpl in H. pose proof H as H'. apply andb_prop in H' as [Hc Hps].
    simpl. destruct (c =? SPACE).
    + destruct (IH Hps) as (ps' & E & Hwf & Hn). exists ps'. auto.
    + exists (Plain c :: ps). auto.
  - exists (Escaped c :: ps). auto.
Qed.

Lemma spell_head ps c rest :
  forallb well_formed ps = true ->
  spell ps ++ [BACKSLASH] = c :: rest -> c <> NEWLINE.
Proof.
  destruct ps as [|[d|d] ps]; simpl; intros H E; inversion E; subst.
  - discriminate.
  - apply andb_prop in H as [Hc _]. apply plain_char_inv in Hc. tauto.
  - discriminate.
Qed.

Lemma iteration_unterminated sp tok ps line result :
  spaces sp = true -> token tok = true ->
  forallb well_formed ps = true ->
  iteration (sp ++ tok ++ SPACE :: spell ps ++ [BACKSLASH]) line result
  = Raise (InvalidEscaping (line + escaped_newlines ps)).
Proof.
  intros Hsp Htok Hps.
  rewrite iteration_token, scan_line_token by assumption.
  cbn [read_cmd]. change (SPACE =? SPACE) with true. cbn [bind negb].
  cbv zeta. cbn [skip_spaces]. change (SPACE =? SPACE) with true.
  cbv iota.
  destruct (skip_spaces_spell ps Hps) as (ps' & -> & Hps' & <-).
  destruct (spell ps' ++ [BACKSLASH]) as [|c rest] eqn:E.
  - destruct ps' as [|[d|d] ps']; discriminate.
  - pose proof (spell_head _ _ _ Hps' E) as Hc.
    apply Z.eqb_neq in Hc. rewrite Hc. rewrite <- E.
    rewrite read_args_unterminated by assumption. reflexivity.
Qed.

End Escape.

(** C9, as stated, fails: a backslash that ends the input, with nothing
    escaping it, is not met by the argument loop when it stands in the token
    or in a comment. Alone it makes up a token without an argument; after a
    comment sign it is dropped with the rest of the line. *)
Lemma trailing_backslash_outside_argument :
  js "\\" = [BACKSLASH]
  /\ Parser.parse (js "\\") = Some (Throw (ExpectedValueAt [BACKSLASH] 1))
  /\ ~ fails_with (js "\\") UnterminatedEscape
  /\ Parser.parse (js "FROM a # c\\") = Some (Ok [from_a]).
Proof.
  split; [reflexivity|]. split; [vm_compute; reflexivity|].
  split; [|vm_compute; reflexivity].
  intros (e & H & Hk). vm_compute in H. inversion H; subst. discriminate.
Qed.

(** C9, amended: when a round of the outer loop finds, after optional
    spaces, a token, a space, and then an argument made of plain characters
    (no line feed, no comment sign, no backslash) and of escaped characters,
    followed by one more backslash that ends the input, [parse] throws
    "Invalid escaping", which the specification calls UnterminatedEscape,
    with the line counter advanced by the escaped line feeds of that
    argument. *)
Theorem unterminated_escape text rest line result sp tok ps :
  head text rest line result ->
  spaces sp = true -> token tok = true ->
  forallb well_formed ps = true ->
  rest = sp ++ tok ++ SPACE :: spell ps ++ [BACKSLASH] ->
  (exists before, text = before ++ [BACKSLASH])
  /\ Parser.parse text
     = Some (Throw (InvalidEscaping (line + escaped_newlines ps)))
  /\ fails_with text UnterminatedEscape.
Proof.
  intros Hh Hsp Htok Hps ->.
  assert (Parser.parse text
          = Some (Throw (InvalidEscaping (line + escaped_newlines ps)))) as Hp
    by (eapply head_raise; [exact Hh|];
        apply iteration_unterminated; assumption).
  split; [|split; [exact Hp|]].
  - apply head_suffix in Hh as [before ->].
    exists (before ++ sp ++ tok ++ SPACE :: spell ps).
    rewrite <- !app_assoc. simpl. reflexivity.
  - eexists; split; [exact Hp|reflexivity].
Qed.

Lemma unterminated_escape_witness :
  Parser.parse (js "FROM a\n RUN echo \\\nhi \\# \\")
  = Some (Throw (InvalidEscaping 3)).
Proof.
  assert (head (js "FROM a\n RUN echo \\\nhi \\# \\")
            (js " RUN echo \\\nhi \\# \\") 2 [from_a]) as Hh
    by (apply (rounds_head 2); vm_compute; reflexivity).
  apply (unterminated_escape _ _ _ _ (js " ") (js "RUN")
           [Plain 101; Plain 99; Plain 104; Plain 111; Plain 32;
            Escaped 10; Plain 104; Plain 105; Plain 32; Escaped 35;
            Plain 32] Hh);
    reflexivity.
Defined.

(** ** A tab after the token *)

Section Tab.
Import Parser.

Lemma unbroken_hash_free_token s :
  unbroken s = true -> hash_free s = true -> forallb token_char s = true.
Proof.
  induction s as [|c s IH]; simpl; [reflexivity|]. intros H1 H2.
  apply andb_prop in H1 as [Hc Hs]. apply andb_prop in H2 as [Hh Hs'].
  rewrite IH by assumption. apply andb_prop in Hc as [Ha Hb].
  unfold token_char. rewrite Ha, Hb, Hh. reflexivity.
Qed.

(** On a run without a space, ended by a line feed, the token loop either
    throws at the line feed or stops at a comment sign; the token it holds
    then is at least what it held before. *)
Lemma read_cmd_unbroken more : forall cmd tail line,
  unbroken more = true ->
  (exists cmd', read_cmd (more ++ NEWLINE :: tail) cmd line
                = Throw (ExpectedValueOn cmd' line))
  \/ (exists cmd' rest',
        read_cmd (more ++ NEWLINE :: tail) cmd line = Ok (cmd', rest', true)
        /\ (length cmd <= length cmd')%nat).
Proof.
  induction more as [|c more IH]; intros cmd tail line H.
  - left. exists cmd. reflexivity.
  - simpl in H. apply andb_prop in H as [Hc Hmore].
    apply andb_prop in Hc as [Hs Hn]. apply negb_true_iff in Hs, Hn.
    simpl. rewrite Hs, Hn. destruct (c =? HASH).
    + right. eauto.
    + destruct (IH (cmd ++ [c]) tail line Hmore)
        as [(cmd' & ->)|(cmd' & rest' & -> & Hl)].
      * left. eauto.
      * right. exists cmd', rest'. split; [reflexivity|].
        rewrite length_app in Hl. simpl in Hl. lia.
Qed.

Lemma token_tab tok more :
  token tok = true -> unbroken more = true -> hash_free more = true ->
  token (tok ++ TAB :: more) = true.
Proof.
  intros Htok Hu Hh.
  destruct (token_inv tok Htok) as (c & tok' & -> & _ & Hall).
  unfold token. simpl length. cbn [Nat.eqb negb andb].
  rewrite forallb_app, Hall. simpl.
  apply unbroken_hash_free_token; assumption.
Qed.

Lemma iteration_tab sp tok more tail line result :
  spaces sp = true -> token tok = true -> unbroken more = true ->
  exists cmd,
    iteration (sp ++ tok ++ TAB :: more ++ NEWLINE :: tail) line result
    = Raise (ExpectedValueOn cmd line).
Proof.
  intros Hsp Htok Hu.
  rewrite iteration_token, scan_line_token by assumption.
  cbn [read_cmd]. change (TAB =? SPACE) with false.
  change (TAB =? HASH) with false. change (TAB =? NEWLINE) with false.
  cbv iota.
  destruct (read_cmd_unbroken more (tok ++ [TAB]) tail line Hu)
    as [(cmd' & ->)|(cmd' & rest' & -> & Hl)].
  - exists cmd'. reflexivity.
  - exists cmd'. cbn [bind negb]. rewrite finish_line_no_args; auto.
    intros ->. rewrite length_app in Hl. simpl in Hl. lia.
Qed.

End Tab.

(** C10, as stated, fails: when a space comes later on the line, what
    follows the tab up to that space is taken into the token and the rest is
    the argument, and [parse] throws "Invalid command" (UnknownCommand), not
    the "Expected to see a value" error. *)
Lemma tab_then_space_is_unknown_command :
  Parser.parse (js "RUN\techo hi\n")
  = Some (Throw (InvalidCommand (js "RUN\techo") 1))
  /\ ~ fails_with (js "RUN\techo hi\n") MissingArgument.
Proof.
  split; [vm_compute; reflexivity|].
  intros (e & H & Hk). vm_compute in H. inversion H; subst. discriminate.
Qed.

(** C10, amended: the loops that skip separators stop at a tab, as at any
    character other than the space; and for a line on which the token is
    followed by a tab and no space comes between that tab and the line feed,
    [parse] throws the "Expected to see a value" error (MissingArgument) on
    that line and produces no command; when no comment sign comes there
    either, the token reported is the token, the tab and all that follows up
    to the line feed. So it is for "FROM\tubuntu\n". *)
Theorem tab_is_not_a_separator :
  (forall c rest, c <> SPACE -> Parser.skip_spaces (c :: rest) = c :: rest)
  /\ (forall rest, Parser.skip_spaces (TAB :: rest) = TAB :: rest)
  /\ (forall text rest line result sp tok more tail,
      head text rest line result ->
      spaces sp = true -> token tok = true -> unbroken more = true ->
      rest = sp ++ tok ++ TAB :: more ++ NEWLINE :: tail ->
      (exists cmd,
          Parser.parse text = Some (Throw (ExpectedValueOn cmd line)))
      /\ fails_with text MissingArgument
      /\ (hash_free more = true ->
          Parser.parse text
          = Some (Throw (ExpectedValueOn (tok ++ TAB :: more) line))))
  /\ Parser.parse (js "FROM\tubuntu\n")
     = Some (Throw (ExpectedValueOn (js "FROM\tubuntu") 1)).
Proof.
  split; [exact skip_spaces_stop|]. split; [reflexivity|].
  split; [|vm_compute; reflexivity].
  intros text rest line result sp tok more tail Hh Hsp Htok Hu ->.
  destruct (iteration_tab sp tok more tail line result Hsp Htok Hu)
    as (cmd & E).
  pose proof (head_raise _ _ _ _ _ Hh E) as Hp.
  split; [eauto|]. split; [eexists; split; [exact Hp|reflexivity]|].
  intros Hfree. eapply head_raise; [exact Hh|].
  change (tok ++ TAB :: more ++ NEWLINE :: tail)
    with (tok ++ (TAB :: more) ++ NEWLINE :: tail).
  rewrite (app_assoc tok). apply iteration_token_newline; [assumption|].
  apply token_tab; assumption.
Qed.

Lemma tab_is_not_a_separator_witness :
  Parser.parse (js "FROM a\n  COPY\tx\ty\nRUN z\n")
  = Some (Throw (ExpectedValueOn (js "COPY\tx\ty") 2)).
Proof.
  assert (head (js "FROM a\n  COPY\tx\ty\nRUN z\n")
            (js "  COPY\tx\ty\nRUN z\n") 2 [from_a]) as Hh
    by (apply (rounds_head 2); vm_compute; reflexivity).
  destruct tab_is_not_a_separator as (_ & _ & H & _).
  refine (proj2 (proj2 (H _ _ _ _ (js "  ") (js "COPY") (js "x\ty")
                          (js "RUN z\n") Hh _ _ _ _)) _);
    reflexivity.
Defined.

(** ** Trimming *)

Lemma trim_start_head s c s' :
  trim_start s = c :: s' -> is_trimmable c = false.
Proof.
  induction s as [|d s IH]; simpl; [discriminate|].
  destruct (is_trimmable d) eqn:E; [assumption|].
  intros H; inversion H; subst; assumption.
Qed.

Lemma trim_start_stop c s :
  is_trimmable c = false -> trim_start (c :: s) = c :: s.
Proof. intros H. simpl. rewrite H. reflexivity. Qed.

Lemma trim_start_last s x :
  is_trimmable x = false ->
  exists s', trim_start (s ++ [x]) = s' ++ [x].
Proof.
  intros Hx. induction s as [|c s IH]; simpl.
  - rewrite Hx. exists []. reflexivity.
  - destruct (is_trimmable c); [exact IH|].
    exists (c :: s). reflexivity.
Qed.

(** What [trim] returns is empty, or starts and ends with characters that
    [trim] does not strip. *)
Lemma trim_shape s :
  trim s = []
  \/ exists x mid y,
       is_trimmable x = false /\ is_trimmable y = false
       /\ (trim s = x :: mid ++ [y] \/ (trim s = [x] /\ x = y)).
Proof.
  unfold trim. destruct (trim_start s) as [|x a] eqn:Ea; [left; reflexivity|].
  right. pose proof (trim_start_head _ _ _ Ea) as Hx.
  simpl rev. destruct (trim_start_last (rev a) x Hx) as (b & Eb).
  rewrite Eb, rev_app_distr. simpl.
  destruct b as [|y b].
  - exists x, [], x. auto.
  - simpl in Eb. pose proof (trim_start_head _ _ _ Eb) as Hy.
    exists x, (rev b), y. simpl. auto.
Qed.

Lemma trim_idempotent s : trim (trim s) = trim s.
Proof.
  destruct (trim_shape s) as [->|(x & mid & y & Hx & Hy & [->|[-> <-]])];
    [reflexivity| |].
  - unfold trim. rewrite trim_start_stop by assumption.
    change (x :: mid ++ [y]) with ((x :: mid) ++ [y]).
    rewrite rev_app_distr. simpl app.
    rewrite trim_start_stop by assumption.
    change (y :: rev mid ++ [x]) with ([y] ++ rev (x :: mid)).
    rewrite rev_app_distr, rev_involutive. reflexivity.
  - unfold trim. rewrite trim_start_stop by assumption. simpl.
    rewrite Hx. reflexivity.
Qed.

Lemma trim_start_spaces sp s :
  spaces sp = true -> trim_start (sp ++ s) = trim_start s.
Proof.
  induction sp as [|c sp IH]; simpl; [reflexivity|]. intros H.
  apply andb_prop in H as [Hc Hsp]. apply Z.eqb_eq in Hc. subst c.
  simpl. auto.
Qed.

(** ** Counting line feeds *)

Section Lines.
Import Parser.

Lemma count_nl_nonneg s : 0 <= count_nl s.
Proof.
  induction s as [|c s IH]; simpl; [lia|]. destruct (c =? NEWLINE); lia.
Qed.

Lemma count_nl_app s t : count_nl (s ++ t) = count_nl s + count_nl t.
Proof. induction s as [|c s IH]; simpl; [reflexivity|]. rewrite IH. lia. Qed.

Lemma count_nl_skip_spaces rest : count_nl (skip_spaces rest) = count_nl rest.
Proof.
  induction rest as [|c rest IH]; simpl; [reflexivity|].
  destruct (Z.eqb_spec c SPACE) as [->|]; [rewrite IH|]; reflexivity.
Qed.

Lemma count_nl_skip_line rest : count_nl (skip_line rest) = count_nl rest.
Proof.
  induction rest as [|c rest IH]; simpl; [reflexivity|].
  destruct (c =? NEWLINE) eqn:E.
  - simpl. rewrite E. reflexivity.
  - rewrite IH. lia.
Qed.

Lemma read_cmd_count rest : forall cmd line cmd' rest' skip,
  read_cmd rest cmd line = Ok (cmd', rest', skip) ->
  count_nl rest' = count_nl rest.
Proof.
  induction rest as [|c rest IH]; simpl; intros cmd line cmd' rest' skip H.
  - inversion H; subst; reflexivity.
  - destruct (c =? SPACE); [inversion H; subst; reflexivity|].
    destruct (c =? HASH).
    { inversion H; subst. apply (count_nl_skip_line (c :: rest)). }
    destruct (c =? NEWLINE); [discriminate|].
    apply IH in H. lia.
Qed.

Lemma read_cmd_throw rest : forall cmd line e,
  read_cmd rest cmd line = Throw e -> error_line e = Some line.
Proof.
  induction rest as [|c rest IH]; simpl; intros cmd line e H; [discriminate|].
  destruct (c =? SPACE); [discriminate|].
  destruct (c =? HASH); [discriminate|].
  destruct (c =? NEWLINE); [inversion H; reflexivity|].
  eapply IH; exact H.
Qed.

Lemma read_args_count : forall n rest args line args' rest' line',
  (length rest <= n)%nat ->
  read_args rest args line = Ok (args', rest', line') ->
  line' + count_nl rest' = line + count_nl rest.
Proof.
  induction n as [|n IH]; intros rest args line args' rest' line' Hn H.
  - destruct rest; [|simpl in Hn; lia]. inversion H; subst; reflexivity.
  - destruct rest as [|c rest]; [inversion H; subst; reflexivity|].
    simpl in H, Hn. simpl count_nl.
    destruct (c =? NEWLINE) eqn:Ec;
      [inversion H; subst; simpl; rewrite Ec; reflexivity|].
    destruct (c =? BACKSLASH).
    { destruct rest as [|c' rest'']; [discriminate|].
      apply IH in H; [|simpl in Hn; lia]. simpl count_nl.
      destruct (c' =? NEWLINE); lia. }
    destruct (c =? HASH).
    { inversion H; subst. rewrite count_nl_skip_line. lia. }
    apply IH in H; [|lia]. lia.
Qed.

Lemma read_args_throw : forall n rest args line e,
  (length rest <= n)%nat ->
  read_args rest args line = Throw e ->
  exists l, error_line e = Some l /\ line <= l <= line + count_nl rest.
Proof.
  induction n as [|n IH]; intros rest args line e Hn H.
  - destruct rest; [discriminate|simpl in Hn; lia].
  - destruct rest as [|c rest]; [discriminate|].
    simpl in H, Hn. simpl count_nl.
    destruct (c =? NEWLINE) eqn:Ec; [discriminate|].
    destruct (c =? BACKSLASH).
    { destruct rest as [|c' rest''].
      - inversion H; subst. exists line. simpl. split; [reflexivity|lia].
      - apply IH in H as (l & Hl & Hb); [|simpl in Hn; lia].
        exists l. split; [exact Hl|]. simpl count_nl.
        pose proof (count_nl_nonneg rest'').
        destruct (c' =? NEWLINE); lia. }
    destruct (c =? HASH); [discriminate|].
    apply IH in H as (l & Hl & Hb); [|lia].
    exists l. split; [exact Hl|lia].
Qed.

Lemma scan_line_count rest line cmd args rest' line' :
  scan_line rest line = Ok (cmd, args, rest', line') ->
  line' + count_nl rest' = line + count_nl rest.
Proof.
  unfold scan_line.
  destruct (read_cmd rest [] line) as [[[cmd0 rest0] skip]|e] eqn:E;
    simpl; [|discriminate].
  apply read_cmd_count in E. destruct skip; simpl.
  - intros H; inversion H; subst. lia.
  - pose proof (count_nl_skip_spaces rest0) as Hsp.
    destruct (skip_spaces rest0) as [|d rest1]; [discriminate|].
    destruct (d =? NEWLINE); [discriminate|].
    destruct (read_args (d :: rest1) [] line) as [[[a r] l]|e] eqn:E2;
      simpl; [|discriminate].
    intros H; inversion H; subst.
    eapply read_args_count in E2; [|reflexivity]. lia.
Qed.

Lemma scan_line_throw rest line e :
  scan_line rest line = Throw e ->
  exists l, error_line e = Some l /\ line <= l <= line + count_nl rest.
Proof.
  unfold scan_line. pose proof (count_nl_nonneg rest) as Hr.
  destruct (read_cmd rest [] line) as [[[cmd0 rest0] skip]|e0] eqn:E; simpl.
  - apply read_cmd_count in E. destruct skip; simpl; [discriminate|].
    pose proof (count_nl_skip_spaces rest0) as Hsp.
    destruct (skip_spaces rest0) as [|d rest1].
    + intros H; inversion H. exists line. simpl. split; [reflexivity|lia].
    + destruct (d =? NEWLINE).
      * intros H; inversion H. exists line. simpl. split; [reflexivity|lia].
      * destruct (read_args (d :: rest1) [] line) as [[[a r] l]|e1] eqn:E2;
          simpl; [discriminate|].
        intros H; inversion H; subst.
        eapply read_args_throw in E2 as (l & Hl & Hb); [|reflexivity].
        exists l. split; [exact Hl|lia].
  - intros H; inversion H; subst. apply read_cmd_throw in E.
    exists line. split; [exact E|lia].
Qed.

End Lines.

(** ** What a round and the loop leave behind *)

Section Rounds.
Import Parser.

Lemma fromToken_kind cmd k :
  CommandType.fromToken cmd = Some k ->
  In k (Enum.values_of CommandType.loaded CommandType.cls).
Proof. intros H. apply find_some in H as [H _]. exact H. Qed.

Lemma new_Command_kind k raw :
  In k (Enum.values_of CommandType.loaded CommandType.cls) ->
  exists c,
    new_Command k raw = Ok c /\ type c = k /\ value c = trim raw
    /\ hashCode c = fingerprint (Enum.ord_field k) (trim raw).
Proof.
  intros Hin. destruct (kind_ordinal k Hin) as [Hord Hrange].
  unfold new_Command. rewrite Hord. cbn [bind].
  eexists; split; [reflexivity|]. cbn [type value hashCode].
  split; [reflexivity|]. split; [reflexivity|].
  rewrite js_shl_small by assumption.
  unfold fingerprint. cbv zeta. apply fold_hash_step.
Qed.

Lemma finish_line_ok cmd args line result result' :
  finish_line cmd args line result = Ok result' ->
  (cmd = [] /\ result' = result)
  \/ (cmd <> [] /\ trim args <> []
      /\ exists k c,
           CommandType.fromToken cmd = Some k
           /\ new_Command k (trim args) = Ok c
           /\ value c = trim args
           /\ well_kept c
           /\ result' = result ++ [c]).
Proof.
  unfold finish_line. cbv zeta.
  destruct cmd as [|x cmd]; [intros H; inversion H; auto|].
  destruct (trim args) as [|y targs] eqn:Et; [discriminate|].
  cbn [length Nat.eqb negb andb].
  destruct (CommandType.fromToken (x :: cmd)) as [k|] eqn:Ef; [|discriminate].
  pose proof (fromToken_kind _ _ Ef) as Hin.
  destruct (new_Command_kind k (y :: targs) Hin) as (c & Hc & Ht & Hv & Hh).
  rewrite Hc. cbn [bind]. intros H; inversion H; subst result'.
  right. split; [discriminate|]. split; [discriminate|].
  assert (trim (y :: targs) = y :: targs) as Hid
    by (rewrite <- Et; apply trim_idempotent).
  rewrite Hid in Hv, Hh.
  exists k, c. split; [reflexivity|]. split; [exact Hc|].
  split; [exact Hv|]. split; [|reflexivity].
  unfold well_kept. rewrite Ht, Hv.
  split; [exact Hin|]. split; [discriminate|]. split; [exact Hid|exact Hh].
Qed.

Lemma finish_line_throw cmd args line result e :
  finish_line cmd args line result = Throw e -> error_line e = Some line.
Proof.
  unfold finish_line. cbv zeta.
  destruct cmd as [|x cmd]; [discriminate|].
  destruct (trim args) as [|y targs]; [intros H; inversion H; reflexivity|].
  cbn [length Nat.eqb negb andb].
  destruct (CommandType.fromToken (x :: cmd)) as [k|] eqn:Ef;
    [|intros H; inversion H; reflexivity].
  destruct (new_Command_kind k (y :: targs) (fromToken_kind _ _ Ef))
    as (c & -> & _).
  discriminate.
Qed.

Lemma read_args_line : forall n rest args line args' rest' line',
  (length rest <= n)%nat ->
  read_args rest args line = Ok (args', rest', line') ->
  line <= line'.
Proof.
  induction n as [|n IH]; intros rest args line args' rest' line' Hn H.
  - destruct rest; [|simpl in Hn; lia]. inversion H; subst; lia.
  - destruct rest as [|c rest]; [inversion H; subst; lia|].
    simpl in H, Hn.
    destruct (c =? NEWLINE) eqn:Ec; [inversion H; subst; lia|].
    destruct (c =? BACKSLASH).
    { destruct rest as [|c' rest'']; [discriminate|].
      apply IH in H; [|simpl in Hn; lia].
      destruct (c' =? NEWLINE); lia. }
    destruct (c =? HASH); [inversion H; subst; lia|].
    apply IH in H; [|lia]. lia.
Qed.

Lemma scan_line_line rest line cmd args rest' line' :
  scan_line rest line = Ok (cmd, args, rest', line') -> line <= line'.
Proof.
  unfold scan_line.
  destruct (read_cmd rest [] line) as [[[cmd0 rest0] skip]|e] eqn:E;
    simpl; [|discriminate].
  destruct skip; simpl.
  - intros H; inversion H; subst. lia.
  - destruct (skip_spaces rest0) as [|d rest1]; [discriminate|].
    destruct (d =? NEWLINE); [discriminate|].
    destruct (read_args (d :: rest1) [] line) as [[[a r] l]|e] eqn:E2;
      simpl; [|discriminate].
    intros H; inversion H; subst.
    eapply read_args_line in E2; [|reflexivity]. lia.
Qed.

Lemma iteration_continue rest line result rest' line' result' :
  iteration rest line result = Continue rest' line' result' ->
  line' + count_nl rest' = line + count_nl rest
  /\ line <= line'
  /\ (result' = result
      \/ exists c, well_kept c /\ result' = result ++ [c]).
Proof.
  unfold iteration. pose proof (count_nl_skip_spaces rest) as Hsp.
  destruct (skip_spaces rest) as [|c rest1]; [discriminate|].
  destruct (c =? NEWLINE) eqn:Ec.
  - intros H; inversion H; subst. simpl in Hsp. rewrite Ec in Hsp.
    split; [lia|]. split; [lia|auto].
  - destruct (scan_line (c :: rest1) line) as [[[[cmd args] rest2] line2]|e]
      eqn:E; [|discriminate].
    pose proof (scan_line_line _ _ _ _ _ _ E) as Hle.
    apply scan_line_count in E.
    destruct (finish_line cmd args line2 result) as [r|e] eqn:Ef;
      [|discriminate].
    intros H; inversion H; subst. split; [lia|]. split; [lia|].
    apply finish_line_ok in Ef
      as [[_ ->]|(_ & _ & k & c0 & _ & _ & _ & Hk & ->)]; eauto.
Qed.

Lemma iteration_raise rest line result e :
  iteration rest line result = Raise e ->
  exists l, error_line e = Some l /\ line <= l <= line + count_nl rest.
Proof.
  unfold iteration. pose proof (count_nl_skip_spaces rest) as Hsp.
  destruct (skip_spaces rest) as [|c rest1]; [discriminate|].
  destruct (c =? NEWLINE); [discriminate|].
  destruct (scan_line (c :: rest1) line) as [[[[cmd args] rest2] line2]|e0]
    eqn:E.
  - pose proof (count_nl_nonneg rest2) as Hnn.
    pose proof (scan_line_line _ _ _ _ _ _ E) as Hle.
    apply scan_line_count in E.
    destruct (finish_line cmd args line2 result) as [r|e1] eqn:Ef;
      [discriminate|].
    intros He; inversion He; subst. apply finish_line_throw in Ef.
    exists line2. split; [exact Ef|lia].
  - intros He; inversion He; subst.
    apply scan_line_throw in E as (l & Hl & Hb). exists l.
    split; [exact Hl|lia].
Qed.

Lemma iteration_break rest line result line' result' :
  iteration rest line result = Break line' result' ->
  line' = line /\ result' = result /\ count_nl rest = 0.
Proof.
  unfold iteration. pose proof (count_nl_skip_spaces rest) as Hsp.
  destruct (skip_spaces rest) as [|c rest1].
  - intros H; inversion H; subst. auto.
  - destruct (c =? NEWLINE); [discriminate|].
    destruct (scan_line (c :: rest1) line) as [[[[cmd args] rest2] line2]|e];
      [|discriminate].
    destruct (finish_line cmd args line2 result); discriminate.
Qed.

(** A loop that ends without an error has counted every line feed left to
    read and has only appended commands, each well kept. *)
Lemma loop_ok : forall fuel rest line result line' result',
  loop fuel rest line result = Some (Ok (line', result')) ->
  line' = line + count_nl rest
  /\ exists more, result' = result ++ more /\ Forall well_kept more.
Proof.
  induction fuel as [|fuel IH]; intros rest line result line' result' H.
  - destruct rest; [|discriminate]. inversion H; subst. simpl.
    split; [lia|]. exists []. rewrite app_nil_r. auto.
  - destruct rest as [|c rest].
    { inversion H; subst. simpl. split; [lia|].
      exists []. rewrite app_nil_r. auto. }
    cbn [loop] in H.
    destruct (iteration (c :: rest) line result) as [r l res|l res|e] eqn:E.
    + apply iteration_continue in E as (Hc & _ & Hres).
      apply IH in H as (-> & more & -> & Hmore). split; [lia|].
      destruct Hres as [->|(c0 & Hk & ->)]; [eauto|].
      exists (c0 :: more). rewrite <- app_assoc. auto.
    + apply iteration_break in E as (-> & -> & E).
      inversion H; subst. split; [lia|].
      exists []. rewrite app_nil_r. auto.
    + discriminate.
Qed.

(** A loop that ends with an error reports a line between the one it
    started on and the last one of the text. *)
Lemma loop_throw : forall fuel rest line result e,
  loop fuel rest line result = Some (Throw e) ->
  exists l, error_line e = Some l /\ line <= l <= line + count_nl rest.
Proof.
  induction fuel as [|fuel IH]; intros rest line result e H.
  - destruct rest; discriminate.
  - destruct rest as [|c rest]; [discriminate|].
    cbn [loop] in H.
    destruct (iteration (c :: rest) line result) as [r l res|l res|e0] eqn:E.
    + apply iteration_continue in E as (Hc & Hle & _).
      apply IH in H as (l0 & Hl & Hb).
      exists l0. split; [exact Hl|lia].
    + discriminate.
    + inversion H; subst. apply iteration_raise in E. exact E.
Qed.

End Rounds.

(** ** The outcome of a parse *)

Lemma head_count text rest line result :
  head text rest line result ->
  line + count_nl rest = 1 + count_nl text.
Proof.
  induction 1 as [|rest line result rest' line' result' _ IH E]; [lia|].
  apply iteration_continue in E as (Hc & _). lia.
Qed.

(** X1. At the top of every round the line counter is one more than the
    number of line feeds the cursor has passed, and a scan that ends without
    an error leaves it at one more than the number of line feeds of the
    text. *)
Theorem line_counter_counts_line_feeds text :
  (forall rest line result,
      head text rest line result ->
      exists before, text = before ++ rest /\ line = 1 + count_nl before)
  /\ (forall line result,
      Parser.scan text = Some (Ok (line, result)) ->
      line = 1 + count_nl text).
Proof.
  split.
  - intros rest line result Hh.
    pose proof (head_count _ _ _ _ Hh) as Hc.
    apply head_suffix in Hh as [before ->]. exists before.
    split; [reflexivity|]. rewrite count_nl_app in Hc. lia.
  - intros line result H. unfold Parser.scan in H.
    apply loop_ok in H as [-> _]. reflexivity.
Qed.

Lemma line_counter_counts_line_feeds_witness :
  let text := js "FROM a\n\n# c\nRUN x \\\n y\n  \nCOPY p q" in
  exists result before,
    head text (js "\n  \nCOPY p q") 5 result
    /\ text = before ++ js "\n  \nCOPY p q"
    /\ 5 = 1 + count_nl before.
Proof.
  intros text.
  destruct (rounds 6 text) as [[[r l] res]|] eqn:E;
    [|vm_compute in E; discriminate].
  pose proof (rounds_head _ _ _ _ _ E) as Hh.
  assert (r = js "\n  \nCOPY p q" /\ l = 5) as [-> ->]
    by (vm_compute in E; inversion E; split; reflexivity).
  destruct (proj1 (line_counter_counts_line_feeds text) _ _ _ Hh)
    as (before & Hb & Hl).
  exists res, before. auto.
Defined.

(** X2. When [parse] throws, the error is one of the two about origins, or
    it carries a line number between 1 and one more than the number of line
    feeds of the text; [parse] never lets an error of the enumeration
    through. *)
Theorem parse_error_line text e :
  Parser.parse text = Some (Throw e) ->
  e = NoOrigin \/ e = MultipleOrigins
  \/ exists l, error_line e = Some l /\ 1 <= l <= 1 + count_nl text.
Proof.
  unfold Parser.parse, Parser.scan.
  destruct (Parser.loop (length text) text 1 []) as [[[line result]|e0]|]
    eqn:E; [| |discriminate].
  - unfold Parser.validate.
    repeat match goal with
           | |- context [if ?b then _ else _] => destruct b
           end; intros H; inversion H; auto.
  - intros H; inversion H; subst. right. right.
    apply loop_throw in E. exact E.
Qed.

Lemma parse_error_line_witness :
  Parser.parse (js "FROM a\n\nRUN x \\\ny\nJUMP z\n# end\n")
  = Some (Throw (InvalidCommand (js "JUMP") 5))
  /\ 1 <= 5 <= 1 + count_nl (js "FROM a\n\nRUN x \\\ny\nJUMP z\n# end\n").
Proof.
  assert (Parser.parse (js "FROM a\n\nRUN x \\\ny\nJUMP z\n# end\n")
          = Some (Throw (InvalidCommand (js "JUMP") 5))) as Hp
    by (vm_compute; reflexivity).
  split; [exact Hp|].
  destruct (parse_error_line _ _ Hp) as [H|[H|(l & Hl & Hb)]];
    [discriminate|discriminate|].
  inversion Hl; subst. exact Hb.
Defined.

Lemma count_cons k c cs :
  Parser.count k (c :: cs)
  = ((if same_object (type c) k then 1 else 0) + Parser.count k cs)%nat.
Proof.
  unfold Parser.count. simpl. destruct (same_object (type c) k); reflexivity.
Qed.

Lemma validate_ok result r :
  Parser.validate result = Ok r ->
  r = result
  /\ (result = []
      \/ exists c cs,
           result = c :: cs
           /\ same_object (type c) CommandType.ORIGIN = true
           /\ Parser.count CommandType.ORIGIN result = 1%nat
           /\ (Parser.count CommandType.ENTRYPOINT result <= 1)%nat).
Proof.
  unfold Parser.validate. destruct result as [|c cs].
  - intros H; inversion H; auto.
  - assert ((0 <? length (c :: cs))%nat = true) as -> by reflexivity.
    destruct (same_object (type c) CommandType.ORIGIN) eqn:Ec;
      cbn [andb negb]; [|discriminate].
    destruct (Nat.ltb_spec 1 (Parser.count CommandType.ORIGIN (c :: cs)))
      as [|Ho]; [discriminate|].
    destruct (Nat.ltb_spec 1 (Parser.count CommandType.ENTRYPOINT (c :: cs)))
      as [|He]; [discriminate|].
    intros H; inversion H; subst. split; [reflexivity|]. right.
    exists c, cs. split; [reflexivity|]. split; [exact Ec|].
    split; [|exact He]. rewrite count_cons, Ec in Ho |- *. lia.
Qed.

(** X3. What [parse] returns is either empty, or starts with an ORIGIN
    command, holds exactly one ORIGIN command and at most one ENTRYPOINT
    command; and every command in it has one of the five kinds, a value that
    is not empty and has no whitespace left to trim at either end, and as
    hash the fingerprint of its kind's ordinal and its value. *)
Theorem parsed_document_invariant text result :
  Parser.parse text = Some (Ok result) ->
  Forall well_kept result
  /\ (result = []
      \/ exists c cs,
           result = c :: cs
           /\ same_object (type c) CommandType.ORIGIN = true
           /\ Parser.count CommandType.ORIGIN result = 1%nat
           /\ (Parser.count CommandType.ENTRYPOINT result <= 1)%nat).
Proof.
  unfold Parser.parse, Parser.scan.
  destruct (Parser.loop (length text) text 1 []) as [[[line r]|e0]|]
    eqn:E; [|discriminate|discriminate].
  intros H. assert (Parser.validate r = Ok result) as Hv by congruence.
  apply validate_ok in Hv as [-> Hshape]. split; [|exact Hshape].
  apply loop_ok in E as (_ & more & -> & Hmore). exact Hmore.
Qed.

Lemma parsed_document_invariant_witness :
  exists c1 c2 c3,
    Parser.parse (js "  FROM  alpine:3 # base\nEXEC apk add \\#x\nCMD sh\n")
    = Some (Ok [c1; c2; c3])
    /\ value c2 = js "apk add #x"
    /\ well_kept c2
    /\ Parser.count CommandType.ORIGIN [c1; c2; c3] = 1%nat.
Proof.
  destruct (Parser.parse
              (js "  FROM  alpine:3 # base\nEXEC apk add \\#x\nCMD sh\n"))
    as [[[|c1 [|c2 [|c3 [|c4 r]]]]|e]|] eqn:E;
    try (vm_compute in E; discriminate).
  exists c1, c2, c3. split; [reflexivity|].
  destruct (parsed_document_invariant _ _ E) as [Hk Hs].
  split; [vm_compute in E; inversion E; subst; reflexivity|].
  split.
  - inversion Hk as [|? ? _ Hk2]; subst. inversion Hk2; subst. assumption.
  - destruct Hs as [Hs|(c & cs & _ & _ & Ho & _)]; [discriminate|exact Ho].
Defined.

(** ** Documents without commands, the other way round *)

Section BlankConverse.
Import Parser.

Lemma skip_spaces_split rest :
  exists sp, spaces sp = true /\ rest = sp ++ skip_spaces rest.
Proof.
  induction rest as [|c rest (sp & Hsp & E)]; [exists []; auto|].
  simpl. destruct (c =? SPACE) eqn:Ec.
  - exists (c :: sp). simpl. rewrite Ec, Hsp. split; [reflexivity|].
    f_equal. exact E.
  - exists []. auto.
Qed.

Lemma skip_line_split t :
  exists pre, no_nl pre = true /\ t = pre ++ skip_line t.
Proof.
  induction t as [|c t (pre & Hpre & E)]; [exists []; auto|].
  simpl. destruct (c =? NEWLINE) eqn:Ec.
  - exists []. auto.
  - exists (c :: pre). unfold no_nl in *. simpl. rewrite Ec, Hpre.
    split; [reflexivity|]. f_equal. exact E.
Qed.

Lemma skip_line_end t : line_end (skip_line t) = true.
Proof.
  induction t as [|c t IH]; [reflexivity|]. simpl.
  destruct (c =? NEWLINE) eqn:Ec; [simpl; exact Ec|exact IH].
Qed.

Lemma split_lines_line l t :
  no_nl l = true -> split_lines (l ++ NEWLINE :: t) = l :: split_lines t.
Proof.
  unfold no_nl. induction l as [|c l IH]; intros H; [reflexivity|].
  simpl in H. apply andb_prop in H as [Hc Hl]. apply negb_true_iff in Hc.
  simpl. rewrite Hc, IH by assumption. reflexivity.
Qed.

Lemma split_lines_last l : no_nl l = true -> split_lines l = [l].
Proof.
  unfold no_nl. induction l as [|c l IH]; intros H; [reflexivity|].
  simpl in H. apply andb_prop in H as [Hc Hl]. apply negb_true_iff in Hc.
  simpl. rewrite Hc, IH by assumption. reflexivity.
Qed.

Lemma spaces_no_nl sp : spaces sp = true -> no_nl sp = true.
Proof.
  unfold spaces, no_nl. induction sp as [|c sp IH]; [reflexivity|].
  simpl. intros H. apply andb_prop in H as [Hc Hsp].
  apply Z.eqb_eq in Hc. subst c. rewrite IH by assumption. reflexivity.
Qed.

Lemma no_nl_app s t : no_nl (s ++ t) = no_nl s && no_nl t.
Proof. apply forallb_app. Qed.

Lemma blank_or_comment_spaces sp :
  spaces sp = true -> blank_or_comment sp = true.
Proof.
  intros H. unfold blank_or_comment.
  rewrite <- (app_nil_r sp), skip_spaces_app by assumption. reflexivity.
Qed.

Lemma blank_or_comment_hash sp body :
  spaces sp = true -> blank_or_comment (sp ++ HASH :: body) = true.
Proof.
  intros H. unfold blank_or_comment.
  rewrite skip_spaces_app by assumption. reflexivity.
Qed.

Lemma read_cmd_grows rest : forall cmd line cmd' rest' skip,
  read_cmd rest cmd line = Ok (cmd', rest', skip) ->
  (length cmd <= length cmd')%nat.
Proof.
  induction rest as [|c rest IH]; simpl; intros cmd line cmd' rest' skip H.
  - inversion H; subst; lia.
  - destruct (c =? SPACE); [inversion H; subst; lia|].
    destruct (c =? HASH); [inversion H; subst; lia|].
    destruct (c =? NEWLINE); [discriminate|].
    apply IH in H. rewrite length_app in H. simpl in H. lia.
Qed.

(** A line scanned without a token is a comment line. *)
Lemma scan_line_no_token c rest line args rest' line' :
  c <> SPACE ->
  scan_line (c :: rest) line = Ok ([], args, rest', line') ->
  c = HASH /\ rest' = skip_line (c :: rest).
Proof.
  intros Hs. unfold scan_line. cbn [read_cmd].
  destruct (Z.eqb_spec c SPACE); [contradiction|].
  destruct (Z.eqb_spec c HASH) as [->|Hh].
  - simpl. intros H; inversion H; subst. auto.
  - destruct (c =? NEWLINE); [cbn [bind]; discriminate|].
    destruct (read_cmd rest ([] ++ [c]) line) as [[[cmd0 rest0] skip]|e]
      eqn:E; simpl; [|discriminate].
    apply read_cmd_grows in E. simpl in E.
    destruct cmd0 as [|x cmd0]; [simpl in E; lia|].
    destruct skip; simpl; [discriminate|].
    destruct (skip_spaces rest0) as [|d rest1]; [discriminate|].
    destruct (d =? NEWLINE); [discriminate|].
    destruct (read_args (d :: rest1) [] line) as [[[a r] l]|e];
      simpl; discriminate.
Qed.

Lemma blank_before_comment sp rest :
  spaces sp = true ->
  blank_document (skip_line rest) = true ->
  blank_document (sp ++ HASH :: rest) = true.
Proof.
  intros Hsp Hb. destruct (skip_line_split rest) as (pre & Hpre & E).
  pose proof (skip_line_end rest) as Hend.
  assert (no_nl (sp ++ HASH :: pre) = true) as Hl.
  { rewrite no_nl_app, spaces_no_nl by assumption.
    unfold no_nl in *. simpl. exact Hpre. }
  rewrite E. destruct (skip_line rest) as [|d t].
  - rewrite app_nil_r. unfold blank_document.
    rewrite split_lines_last by exact Hl. simpl.
    rewrite blank_or_comment_hash by assumption. reflexivity.
  - simpl in Hend. apply Z.eqb_eq in Hend. subst d.
    change (sp ++ HASH :: pre ++ NEWLINE :: t)
      with (sp ++ (HASH :: pre) ++ NEWLINE :: t).
    rewrite app_assoc. unfold blank_document in *.
    rewrite split_lines_line by exact Hl. simpl in Hb |- *.
    rewrite blank_or_comment_hash by assumption. exact Hb.
Qed.

(** A round that adds no command has read a blank line or a comment. *)
Lemma iteration_no_command rest line result rest' line' result' :
  iteration rest line result = Continue rest' line' result' ->
  length result' = length result ->
  blank_document rest' = true ->
  blank_document rest = true.
Proof.
  unfold iteration. destruct (skip_spaces_split rest) as (sp & Hsp & E).
  destruct (skip_spaces rest) as [|c rest1] eqn:Es; [discriminate|].
  pose proof (skip_spaces_head _ _ _ Es) as Hc.
  destruct (c =? NEWLINE) eqn:Ec.
  - intros H Hlen Hb; inversion H; subst rest1 line' result'.
    apply Z.eqb_eq in Ec. subst c. rewrite E. unfold blank_document in *.
    rewrite split_lines_line by (apply spaces_no_nl; assumption).
    simpl. rewrite blank_or_comment_spaces by assumption. exact Hb.
  - destruct (scan_line (c :: rest1) line) as [[[[cmd args] rest2] line2]|e]
      eqn:E2; [|discriminate].
    destruct (finish_line cmd args line2 result) as [r|e] eqn:Ef;
      [|discriminate].
    intros H Hlen Hb; inversion H; subst rest2 line2 r.
    apply finish_line_ok in Ef
      as [[-> _]|(_ & _ & k & c0 & _ & _ & _ & _ & ->)].
    + apply scan_line_no_token in E2 as [-> ->]; [|assumption].
      rewrite E. apply blank_before_comment; assumption.
    + rewrite length_app in Hlen. simpl in Hlen. lia.
Qed.

Lemma iteration_break_blank rest line result line' result' :
  iteration rest line result = Break line' result' ->
  blank_document rest = true.
Proof.
  unfold iteration. destruct (skip_spaces_split rest) as (sp & Hsp & E).
  destruct (skip_spaces rest) as [|c rest1].
  - intros _. rewrite E, app_nil_r. unfold blank_document.
    rewrite split_lines_last by (apply spaces_no_nl; assumption).
    simpl. rewrite blank_or_comment_spaces by assumption. reflexivity.
  - destruct (c =? NEWLINE); [discriminate|].
    destruct (scan_line (c :: rest1) line) as [[[[cmd args] rest2] line2]|e];
      [|discriminate].
    destruct (finish_line cmd args line2 result); discriminate.
Qed.

Lemma loop_no_command : forall fuel rest line result line' result',
  loop fuel rest line result = Some (Ok (line', result')) ->
  length result' = length result ->
  blank_document rest = true.
Proof.
  induction fuel as [|fuel IH]; intros rest line result line' result' H Hlen.
  - destruct rest; [reflexivity|discriminate].
  - destruct rest as [|c rest]; [reflexivity|].
    cbn [loop] in H.
    destruct (iteration (c :: rest) line result) as [r l res|l res|e] eqn:E;
      [| |discriminate].
    + pose proof (iteration_continue _ _ _ _ _ _ E) as (_ & _ & Hres).
      pose proof (loop_ok _ _ _ _ _ _ H) as (_ & more & Hm & _).
      assert (length res = length result) as Hl.
      { subst result'. rewrite length_app in Hlen.
        destruct Hres as [->|(c0 & _ & ->)]; [reflexivity|].
        rewrite length_app in Hlen. simpl in Hlen. lia. }
      eapply iteration_no_command; [exact E|exact Hl|].
      eapply IH; [exact H|]. lia.
    + eapply iteration_break_blank; exact E.
Qed.

End BlankConverse.

(** X4. [parse] returns the empty sequence exactly for the texts every
    physical line of which holds only spaces or has the comment sign as its
    first character other than a space: any other text yields a command or
    an error. *)
Theorem empty_result_iff_blank_document text :
  Parser.parse text = Some (Ok []) <-> blank_document text = true.
Proof.
  split.
  - unfold Parser.parse, Parser.scan.
    destruct (Parser.loop (length text) text 1 []) as [[[line r]|e0]|]
      eqn:E; [|discriminate|discriminate].
    intros H. assert (Parser.validate r = Ok []) as Hv by congruence.
    apply validate_ok in Hv as [<- _].
    eapply loop_no_command; [exact E|reflexivity].
  - intros H. unfold Parser.parse, Parser.scan.
    destruct (loop_blank (length text) text 1 [] H (Nat.le_refl _))
      as (line' & ->).
    reflexivity.
Qed.

Lemma empty_result_iff_blank_document_witness :
  blank_document (js " # only\n\n   ") = true
  /\ blank_document (js "# c\n\t\n") = false
  /\ Parser.parse (js "# c\n\t\n") <> Some (Ok []).
Proof.
  split; [|split; [reflexivity|]].
  - apply (proj1 (empty_result_iff_blank_document (js " # only\n\n   "))).
    vm_compute. reflexivity.
  - intros H. apply (proj1 (empty_result_iff_blank_document _)) in H.
    vm_compute in H. discriminate.
Defined.

(** ** A line with a token and an argument *)

Section WellFormedLine.
Import Parser.

Lemma trim_leading_space s : trim (SPACE :: s) = trim s.
Proof. reflexivity. Qed.

Lemma new_Command_trim k raw : new_Command k (trim raw) = new_Command k raw.
Proof. unfold new_Command. rewrite trim_idempotent. reflexivity. Qed.

Lemma skip_line_comment body tail :
  no_nl body = true -> line_end tail = true ->
  skip_line (body ++ tail) = tail.
Proof.
  unfold no_nl. induction body as [|c body IH]; intros Hb Ht; simpl.
  - destruct tail as [|d tail]; [reflexivity|]. simpl in Ht. simpl.
    rewrite Ht. reflexivity.
  - simpl in Hb. apply andb_prop in Hb as [Hc Hb].
    apply negb_true_iff in Hc. rewrite Hc. auto.
Qed.

(** The argument loop reads whole pieces up to the end of the line or to a
    comment, which it drops. *)
Lemma read_args_spell ps : forall cm tail args line,
  forallb well_formed ps = true ->
  trailing_comment cm = true -> line_end tail = true ->
  read_args (spell ps ++ cm ++ tail) args line
  = Ok (args ++ literal ps, tail, line + escaped_newlines ps).
Proof.
  induction ps as [|[c|c] ps IH]; intros cm tail args line H Hcm Ht.
  - simpl spell. simpl literal. simpl escaped_newlines.
    rewrite app_nil_r, Z.add_0_r. simpl app.
    destruct cm as [|h body].
    + destruct tail as [|d tail]; [reflexivity|].
      simpl in Ht. simpl. rewrite Ht. reflexivity.
    + simpl in Hcm. apply andb_prop in Hcm as [Hh Hbody].
      apply Z.eqb_eq in Hh. subst h.
      change ((HASH :: body) ++ tail) with (HASH :: body ++ tail).
      cbn [read_args]. change (HASH =? NEWLINE) with false.
      change (HASH =? BACKSLASH) with false.
      change (HASH =? HASH) with true. cbv iota.
      cbn [skip_line]. change (HASH =? NEWLINE) with false. cbv iota.
      rewrite skip_line_comment by assumption. reflexivity.
  - simpl in H. apply andb_prop in H as [Hc Hps].
    destruct (plain_char_inv c Hc) as (H1 & H2 & H3).
    apply Z.eqb_neq in H1, H2, H3.
    simpl. rewrite H1, H2, H3. rewrite IH by assumption.
    rewrite <- app_assoc. reflexivity.
  - simpl in H. simpl. rewrite IH by assumption.
    rewrite <- app_assoc. simpl.
    destruct (c =? NEWLINE); do 2 f_equal; lia.
Qed.

Lemma skip_spaces_pieces ps rest :
  forallb well_formed ps = true -> trim (literal ps) <> [] ->
  exists c ps',
    skip_spaces (spell ps ++ rest) = spell ps' ++ rest
    /\ spell ps' ++ rest = c :: tl (spell ps' ++ rest)
    /\ c <> NEWLINE
    /\ forallb well_formed ps' = true
    /\ escaped_newlines ps' = escaped_newlines ps
    /\ trim (literal ps') = trim (literal ps).
Proof.
  induction ps as [|[c|c] ps IH]; intros H Ht.
  - contradiction.
  - simpl in H. pose proof H as H'. apply andb_prop in H' as [Hc Hps].
    destruct (Z.eqb_spec c SPACE) as [->|Hs].
    + simpl literal in Ht. rewrite trim_leading_space in Ht.
      destruct (IH Hps Ht) as (d & ps' & E & Ehd & Hd & Hwf & Hn & Htr).
      exists d, ps'. simpl. auto 10.
    + exists c, (Plain c :: ps). simpl.
      apply Z.eqb_neq in Hs. rewrite Hs.
      apply plain_char_inv in Hc as (Hn & _). rewrite H. auto 10.
  - exists BACKSLASH, (Escaped c :: ps). simpl.
    repeat split; auto; discriminate.
Qed.

End WellFormedLine.

Lemma iteration_instruction sp tok ps cm tail line result k :
  spaces sp = true -> token tok = true ->
  forallb well_formed ps = true ->
  trailing_comment cm = true -> line_end tail = true ->
  CommandType.fromToken tok = Some k ->
  trim (literal ps) <> [] ->
  exists c,
    new_Command k (literal ps) = Ok c
    /\ type c = k /\ value c = trim (literal ps)
    /\ Parser.iteration (sp ++ tok ++ SPACE :: spell ps ++ cm ++ tail)
         line result
       = Parser.Continue tail (line + escaped_newlines ps) (result ++ [c]).
Proof.
  intros Hsp Htok Hps Hcm Hend Hk Htrim.
  destruct (new_Command_kind k (literal ps) (fromToken_kind _ _ Hk))
    as (c & Hc & Hty & Hv & _).
  exists c. split; [exact Hc|]. split; [exact Hty|]. split; [exact Hv|].
  rewrite iteration_token, scan_line_token by assumption.
  cbn [Parser.read_cmd]. change (SPACE =? SPACE) with true. cbn [bind negb].
  cbv zeta. cbn [Parser.skip_spaces]. change (SPACE =? SPACE) with true.
  cbv iota.
  destruct (skip_spaces_pieces ps (cm ++ tail) Hps Htrim)
    as (d & ps' & -> & Ehd & Hd & Hps' & <- & Htr).
  rewrite Ehd. apply Z.eqb_neq in Hd. rewrite Hd. rewrite <- Ehd.
  rewrite read_args_spell by assumption. cbn [bind app].
  unfold Parser.finish_line. cbv zeta. rewrite Htr.
  destruct (token_inv tok Htok) as (x & tok' & -> & _).
  destruct (trim (literal ps)) as [|y t] eqn:Et; [contradiction|].
  cbn [length Nat.eqb negb andb]. rewrite Hk.
  rewrite <- Et, new_Command_trim, Hc. reflexivity.
Qed.

(** X5. A round that finds, after optional spaces, a token that resolves to
    a kind, a space, an argument made of plain and escaped characters that
    does not trim to nothing, then optionally a comment, and the end of the
    line, appends one command of that kind whose value is the trimmed
    argument with every escaped character kept and its backslash dropped;
    it leaves the cursor at the end of the line and advances the line
    counter by the number of escaped line feeds. The spaces around the token
    and the comment leave no trace. *)
Theorem instruction_line_round sp tok ps cm tail line result k :
  spaces sp = true -> token tok = true ->
  forallb well_formed ps = true ->
  trailing_comment cm = true -> line_end tail = true ->
  CommandType.fromToken tok = Some k ->
  trim (literal ps) <> [] ->
  exists c,
    new_Command k (literal ps) = Ok c
    /\ type c = k /\ value c = trim (literal ps)
    /\ Parser.iteration (sp ++ tok ++ SPACE :: spell ps ++ cm ++ tail)
         line result
       = Parser.Continue tail (line + escaped_newlines ps) (result ++ [c]).
Proof. apply iteration_instruction. Qed.

Lemma instruction_line_round_witness :
  exists c,
    value c = js "echo a#b \\ \nc"
    /\ Parser.iteration
         (js "  EXEC   echo a\\#b \\\\ \\\nc  # say\nCMD x") 7 [from_a]
       = Parser.Continue (js "\nCMD x") 8 [from_a; c].
Proof.
  assert (CommandType.fromToken (js "EXEC")
          = Some {| Enum.constructor := CommandType.cls; Enum.ord_field := 1;
                    Enum.fields := [js "RUN"; js "EXEC"] |}) as Hk
    by (vm_compute; reflexivity).
  destruct (instruction_line_round (js "  ") (js "EXEC")
              [Plain 32; Plain 32; Plain 101; Plain 99; Plain 104;
               Plain 111; Plain 32; Plain 97; Escaped 35; Plain 98;
               Plain 32; Escaped 92; Plain 32; Escaped 10; Plain 99;
               Plain 32; Plain 32]
              (js "# say") (js "\nCMD x") 7 [from_a] _
              eq_refl eq_refl eq_refl eq_refl eq_refl Hk)
    as (c & _ & _ & Hv & Hi); [vm_compute; discriminate|].
  exists c. split; [rewrite Hv; vm_compute; reflexivity|exact Hi].
Defined.

(** ** The column text *)

Lemma firstn_repeat_le {A : Type} (x : A) : forall n m,
  (n <= m)%nat -> firstn n (repeat x m) = repeat x n.
Proof.
  induction n as [|n IH]; intros m H; [reflexivity|].
  destruct m as [|m]; [lia|]. simpl. rewrite IH by lia. reflexivity.
Qed.

(** X9. [_strLimit] always returns exactly 14 code units: the first 14 of
    its argument when that has 14 or more, otherwise the whole argument
    followed by spaces; applying it twice is applying it once. *)
Theorem strLimit_fourteen value :
  length (Glassine._strLimit value) = 14%nat
  /\ Glassine._strLimit value
     = firstn 14 value ++ repeat SPACE (14 - length value)
  /\ Glassine._strLimit (Glassine._strLimit value)
     = Glassine._strLimit value.
Proof.
  assert (forall s,
             Glassine._strLimit s
             = firstn 14 s ++ repeat SPACE (14 - length s)) as Hshape.
  { intros s. unfold Glassine._strLimit, Glassine.substring0. cbv zeta.
    change (js "              ") with (repeat SPACE 14).
    rewrite repeat_length.
    assert (Z.to_nat
              (Z.min (Z.max (Z.min 14 (Z.of_nat (length s))) 0)
                 (Z.of_nat (length s)))
            = Nat.min 14 (length s)) as -> by lia.
    assert (firstn (Nat.min 14 (length s)) s = firstn 14 s) as ->.
    { destruct (Nat.le_ge_cases 14 (length s)).
      - rewrite Nat.min_l by assumption. reflexivity.
      - rewrite Nat.min_r by assumption.
        rewrite !firstn_all2 by lia. reflexivity. }
    rewrite length_firstn.
    assert (Z.to_nat
              (Z.min (Z.max (14 - Z.of_nat (Nat.min 14 (length s))) 0)
                 (Z.of_nat 14))
            = (14 - length s)%nat) as -> by lia.
    rewrite firstn_repeat_le by lia. reflexivity. }
  assert (forall s, length (Glassine._strLimit s) = 14%nat) as Hlen.
  { intros s. rewrite Hshape, length_app, length_firstn, repeat_length. lia. }
  split; [apply Hlen|]. split; [apply Hshape|].
  rewrite (Hshape (Glassine._strLimit value)), Hlen.
  rewrite firstn_all2 by (rewrite Hlen; lia).
  simpl. apply app_nil_r.
Qed.

(** ** Whole documents *)

Section Documents.
Import Parser.

Lemma loop_round rest line result rest' line' result' :
  iteration rest line result = Continue rest' line' result' ->
  loop (length rest) rest line result
  = loop (length rest') rest' line' result'.
Proof.
  intros E. pose proof (iteration_progress _ _ _ _ _ _ E) as Hp.
  destruct rest as [|c rest]; [simpl in Hp; lia|].
  simpl length. cbn [loop]. rewrite E.
  apply loop_enough. simpl in Hp. lia.
Qed.

Lemma iteration_line_feed sp rest line result :
  spaces sp = true ->
  iteration (sp ++ NEWLINE :: rest) line result
  = Continue rest (line + 1) result.
Proof.
  intros Hsp. unfold iteration. rewrite skip_spaces_app by assumption.
  reflexivity.
Qed.

Lemma iteration_newline rest line result :
  iteration (NEWLINE :: rest) line result = Continue rest (line + 1) result.
Proof. reflexivity. Qed.

Lemma iteration_comment sp body rest line result :
  spaces sp = true -> no_nl body = true ->
  iteration (sp ++ HASH :: body ++ NEWLINE :: rest) line result
  = Continue (NEWLINE :: rest) line result.
Proof.
  intros Hsp Hb. unfold iteration. rewrite skip_spaces_app by assumption.
  cbn [skip_spaces]. change (HASH =? SPACE) with false. cbv iota.
  change (HASH =? NEWLINE) with false. cbv iota.
  unfold scan_line. cbn [read_cmd]. change (HASH =? SPACE) with false.
  change (HASH =? HASH) with true. cbv iota. cbn [bind negb].
  cbn [skip_line]. change (HASH =? NEWLINE) with false. cbv iota.
  rewrite skip_line_comment by (assumption || reflexivity).
  reflexivity.
Qed.

(** From any state, the loop reads a document line by line and appends its
    commands. *)
Lemma loop_document doc : forall line result,
  forallb line_ok doc = true ->
  exists line',
    loop (length (render doc)) (render doc) line result
    = Some (Ok (line', result ++ commands doc)).
Proof.
  induction doc as [|l doc IH]; intros line result Hok.
  - exists line. simpl. rewrite app_nil_r. reflexivity.
  - simpl in Hok. apply andb_prop in Hok as [Hl Hdoc].
    destruct l as [sp|sp body|sp tok ps cm]; simpl render; simpl commands.
    + simpl in Hl.
      rewrite (loop_round _ _ _ _ _ _
                 (iteration_line_feed sp (render doc) line result Hl)).
      apply IH; assumption.
    + simpl in Hl. apply andb_prop in Hl as [Hsp Hb].
      rewrite <- app_assoc. simpl app.
      rewrite (loop_round _ _ _ _ _ _
                 (iteration_comment sp body (render doc) line result Hsp Hb)).
      rewrite (loop_round _ _ _ _ _ _
                 (iteration_newline (render doc) line result)).
      apply IH; assumption.
    + simpl in Hl.
      repeat match goal with
             | H : _ && _ = true |- _ => apply andb_prop in H as [H ?]
             end.
      destruct (CommandType.fromToken tok) as [k|] eqn:Ek; [|discriminate].
      assert (trim (literal ps) <> []) as Htrim
        by (destruct (trim (literal ps)); [discriminate|discriminate]).
      destruct (iteration_instruction sp tok ps cm (NEWLINE :: render doc)
                  line result k) as (c & Hc & _ & _ & Hi); try assumption;
        try reflexivity.
      rewrite Hc.
      replace ((sp ++ tok ++ SPACE :: spell ps ++ cm) ++ NEWLINE :: render doc)
        with (sp ++ tok ++ SPACE :: spell ps ++ cm ++ NEWLINE :: render doc)
        by (rewrite <- !app_assoc; simpl; rewrite <- !app_assoc; reflexivity).
      rewrite (loop_round _ _ _ _ _ _ Hi).
      rewrite (loop_round _ _ _ _ _ _
                 (iteration_newline (render doc) _ _)).
      destruct (IH (line + escaped_newlines ps + 1) (result ++ [c]) Hdoc)
        as (line' & ->).
      exists line'. rewrite <- app_assoc. reflexivity.
Qed.

End Documents.

Lemma commands_instructions doc :
  forallb line_ok doc = true ->
  map (fun c => (Some (type c), value c)) (commands doc) = instructions doc.
Proof.
  induction doc as [|l doc IH]; intros Hok; [reflexivity|].
  simpl in Hok. apply andb_prop in Hok as [Hl Hdoc].
  destruct l as [sp|sp body|sp tok ps cm]; simpl; auto.
  simpl in Hl.
  destruct (CommandType.fromToken tok) as [k|] eqn:Ek;
    [|rewrite andb_false_r in Hl; discriminate].
  destruct (new_Command_kind k (literal ps) (fromToken_kind _ _ Ek))
    as (c & -> & Ht & Hv & _).
  simpl. rewrite Ht, Hv, IH by assumption. reflexivity.
Qed.

(** X10. A text written line by line, each line ended by a line feed and
    being blank, a comment, or an instruction (indentation, a token that
    resolves, a space, an argument of plain and escaped characters that does
    not trim to nothing, and optionally a comment), is scanned without an
    error into one command for each instruction, in the order of the lines,
    with the kind its token resolves to and its trimmed argument as value;
    [parse] then returns what the checks on the whole document make of that
    sequence. *)
Theorem document_commands doc :
  forallb line_ok doc = true ->
  (exists line, Parser.scan (render doc) = Some (Ok (line, commands doc)))
  /\ Parser.parse (render doc) = Some (Parser.validate (commands doc))
  /\ map (fun c => (Some (type c), value c)) (commands doc)
     = instructions doc.
Proof.
  intros Hok.
  destruct (loop_document doc 1 [] Hok) as (line & Hl). simpl app in Hl.
  split; [exists line; exact Hl|]. split.
  - unfold Parser.parse, Parser.scan. rewrite Hl. reflexivity.
  - apply commands_instructions. exact Hok.
Qed.

Lemma document_commands_witness :
  let doc :=
    [ CommentLine (js " ") (js " image");
      Instruction [] (js "FROM") [Plain 97] (js "");
      BlankLine (js "  ");
      Instruction (js "  ") (js "EXEC")
        [Plain 32; Plain 108; Plain 115; Plain 32; Escaped 10; Plain 45;
         Plain 108; Plain 32]
        (js "# list") ] in
  render doc = js " # image\nFROM a\n  \n  EXEC  ls \\\n-l # list\n"
  /\ map value (commands doc) = [js "a"; js "ls \n-l"]
  /\ Parser.parse (render doc) = Some (Ok (commands doc)).
Proof.
  intros doc.
  destruct (document_commands doc eq_refl) as (_ & Hp & Hi).
  split; [reflexivity|]. split; [reflexivity|].
  rewrite Hp. reflexivity.
Defined.


(** ** The closed enumerations *)

Section EnumFacts.
Context {C : Type} `{Countable C} {T : Enum.ClassTable C} {F : Type}.
Implicit Types (h : Enum.Heap C F) (v : Enum.Instance C F).


Lemma ord_closed h v :
  Enum.is_closed h (Enum.constructor v) = true ->
  Enum.ord h v = Ok (Enum.ord_field v).
Proof. intros Hc. unfold Enum.ord. rewrite Hc. reflexivity. Qed.




(** [close()] raises the flag of the classes that have the text of the
    closed class, and of no other. *)
Lemma is_closed_close h cls c :
  Enum.is_closed (Enum.close cls h) c
  = bool_decide (Enum.class_text c = Enum.class_text cls)
    || Enum.is_closed h c.
Proof.
  unfold Enum.is_closed, Enum.close. cbn [Enum.closed].
  rewrite lookup_insert.
  destruct (decide (Enum.class_text cls = Enum.class_text c)) as [E|E].
  - rewrite bool_decide_eq_true_2 by congruence. reflexivity.
  - rewrite bool_decide_eq_false_2 by congruence. reflexivity.
Qed.

Lemma is_closed_close_same h cls :
  Enum.is_closed (Enum.close cls h) cls = true.
Proof.
  rewrite is_closed_close, bool_decide_eq_true_2 by reflexivity.
  reflexivity.
Qed.

Lemma is_closed_new h cls f v h' c :
  Enum.new cls f h = Ok (v, h') ->
  Enum.is_closed h' c = Enum.is_closed h c.
Proof.
  unfold Enum.new. destruct (Enum.is_closed h cls); [discriminate|].
  intros E; inversion E; subst. reflexivity.
Qed.


End EnumFacts.




(** ** Ordinals, names and closing *)

Section EnumMore.
Context {C : Type} `{Countable C} {T : Enum.ClassTable C} {F : Type}.
Implicit Types (h : Enum.Heap C F) (v : Enum.Instance C F).

Lemma findM_pure {A : Type} (p : A -> Res bool) (q : A -> bool) l :
  (forall x, In x l -> p x = Ok (q x)) ->
  findM p l = Ok (List.find q l).
Proof.
  induction l as [|x l IH]; intros Hp; [reflexivity|].
  simpl. rewrite (Hp x) by (left; reflexivity). cbn [bind].
  destruct (q x); [reflexivity|]. apply IH.
  intros y Hy. apply Hp. right. exact Hy.
Qed.

Lemma instanceof_direct v cls :
  Enum.constructor v = cls -> Enum.instanceof v cls = true.
Proof.
  intros <-. unfold Enum.instanceof. apply bool_decide_eq_true_2.
  apply elem_of_cons. left. reflexivity.
Qed.

Lemma values_lookup_new h cls f v h' key :
  Enum.new cls f h = Ok (v, h') ->
  Enum.values h' !! key
  = if decide (Enum.class_text cls = key) then Some (Enum.ord_field v + 1)
    else Enum.values h !! key.
Proof.
  unfold Enum.new. destruct (Enum.is_closed h cls); [discriminate|].
  intros E; inversion E; subst; simpl. apply lookup_insert.
Qed.

Lemma is_closed_same_text h c cls :
  Enum.class_text c = Enum.class_text cls ->
  Enum.is_closed h c = Enum.is_closed h cls.
Proof. intros E. unfold Enum.is_closed. rewrite E. reflexivity. Qed.

Section Tidy.
Variables (h0 : Enum.Heap C F) (cls : C).
Variable l : list (string * Enum.Instance C F).
Hypothesis Hclosed : Enum.is_closed h0 cls = true.
Hypothesis Hprops : Enum.props h0 cls = bindings l.
Hypothesis Hdirect :
  List.Forall (fun kv => Enum.constructor (snd kv) = cls) l.
Hypothesis Hkeys : List.NoDup (map fst l).
Hypothesis Hords : List.NoDup (map (fun kv => Enum.ord_field (snd kv)) l).

Lemma bound_direct k v : In (k, v) l -> Enum.constructor v = cls.
Proof.
  intros Hin. rewrite List.Forall_forall in Hdirect.
  exact (Hdirect (k, v) Hin).
Qed.

Lemma find_binding : forall l' k v,
  List.NoDup (map (fun kv => Enum.ord_field (snd kv)) l') ->
  In (k, v) l' ->
  List.find
    (fun kv : string * option (Enum.Instance C F) =>
       match snd kv with
       | Some w => Enum.ord_field w =? Enum.ord_field v
       | None => false
       end)
    (bindings l')
  = Some (k, Some v).
Proof.
  induction l' as [|[k' w] l' IH]; intros k v Hnd Hin; [contradiction|].
  simpl in Hnd. apply List.NoDup_cons_iff in Hnd as [Hw Hnd].
  simpl. destruct (Z.eqb_spec (Enum.ord_field w) (Enum.ord_field v)) as [E|E].
  - destruct Hin as [Heq|Hin]; [inversion Heq; reflexivity|].
    exfalso. apply Hw. rewrite E.
    apply (in_map (fun kv => Enum.ord_field (snd kv)) _ _ Hin).
  - destruct Hin as [Heq|Hin]; [inversion Heq; subst; contradiction|].
    apply IH; assumption.
Qed.

Lemma same_ordinal k v k2 v2 :
  In (k, v) l -> In (k2, v2) l ->
  Enum.ord_field v2 = Enum.ord_field v -> k2 = k.
Proof.
  intros H1 H2 E.
  pose proof (find_binding l k v Hords H1) as F1.
  pose proof (find_binding l k2 v2 Hords H2) as F2.
  rewrite E in F2. rewrite F1 in F2. inversion F2. reflexivity.
Qed.

Lemma props_same h :
  Enum.classes h = Enum.classes h0 -> Enum.props h cls = bindings l.
Proof.
  intros E. unfold Enum.props, Enum.class_of. rewrite E. exact Hprops.
Qed.

Lemma is_closed_same h c :
  Enum.closed h = Enum.closed h0 ->
  Enum.is_closed h c = Enum.is_closed h0 c.
Proof. intros E. unfold Enum.is_closed. rewrite E. reflexivity. Qed.

(** [name()] of a bound instance gives its key and leaves the heap tidy,
    with the key cached. *)
Lemma name_tidy h k v :
  Enum.closed h = Enum.closed h0 -> Enum.classes h = Enum.classes h0 ->
  cached_right h l -> In (k, v) l ->
  exists h',
    Enum.name h v = (Ok (Some k), h')
    /\ Enum.values h' = Enum.values h
    /\ Enum.closed h' = Enum.closed h0
    /\ Enum.classes h' = Enum.classes h0
    /\ cached_right h' l
    /\ Enum.names h' !! (Enum.constructor v, Enum.ord_field v)
       = Some (Some k).
Proof.
  intros Ecl Ecs Hcache Hin.
  pose proof (bound_direct k v Hin) as Hv.
  assert (Enum.is_closed h (Enum.constructor v) = true) as Hc
    by (rewrite Hv, is_closed_same by assumption; exact Hclosed).
  unfold Enum.name. rewrite Hc. cbn [negb].
  destruct (Hcache k v Hin) as [Hn|Hn]; rewrite Hn.
  2: { exists h. auto 10. }
  replace (Enum.props h (Enum.constructor v)) with (bindings l)
    by (rewrite Hv; symmetry; apply props_same; assumption).
  rewrite (findM_pure _
             (fun kv : string * option (Enum.Instance C F) =>
                match snd kv with
                | Some w => Enum.ord_field w =? Enum.ord_field v
                | None => false
                end)).
  - rewrite (find_binding l k v Hords Hin). cbn [option_map fst].
    eexists. split; [reflexivity|].
    split; [reflexivity|]. split; [exact Ecl|]. split; [exact Ecs|].
    cbn [Enum.set_name Enum.names]. split; [|apply lookup_insert_eq].
    intros k2 v2 Hin2. pose proof (Hcache k2 v2 Hin2) as Hc2.
    rewrite (bound_direct k2 v2 Hin2) in Hc2 |- *.
    cbn [Enum.set_name Enum.names]. rewrite Hv.
    destruct (Z.eq_dec (Enum.ord_field v2) (Enum.ord_field v)) as [E|E].
    + rewrite E, lookup_insert_eq. right.
      rewrite (same_ordinal k v k2 v2 Hin Hin2 E). reflexivity.
    + rewrite lookup_insert_ne by congruence. exact Hc2.
  - intros [k' [w|]] Hin'; [|reflexivity]. cbn [snd].
    unfold bindings in Hin'. apply in_map_iff in Hin' as ([k'' w'] & E & Hw).
    inversion E; subst k'' w'.
    pose proof (bound_direct k' w Hw) as Hcw.
    rewrite instanceof_direct by (rewrite Hcw, Hv; reflexivity).
    rewrite !ord_closed; [reflexivity|exact Hc|].
    rewrite Hcw, <- Hv. exact Hc.
Qed.

Lemma values_of_tidy h :
  Enum.classes h = Enum.classes h0 -> Enum.values_of h cls = map snd l.
Proof.
  intros E. unfold Enum.values_of. rewrite props_same by assumption.
  clear Hprops Hkeys Hords. induction l as [|[k v] l' IH]; [reflexivity|].
  apply List.Forall_cons_iff in Hdirect as [Hv Hd].
  simpl. rewrite instanceof_direct by exact Hv. simpl. f_equal.
  apply IH. exact Hd.
Qed.

Lemma find_name_tidy n : forall l' h,
  incl l' l -> List.NoDup (map fst l') ->
  Enum.closed h = Enum.closed h0 -> Enum.classes h = Enum.classes h0 ->
  cached_right h l ->
  (forall v, In (n, v) l' ->
     exists h', Enum.find_name n (map snd l') h = (Ok (Some v), h'))
  /\ (~ In n (map fst l') ->
      exists h', Enum.find_name n (map snd l') h = (Ok None, h')).
Proof.
  induction l' as [|[k' w] l' IH]; intros h Hincl Hnd Ecl Ecs Hcache.
  - split; [intros v []|]. intros _. exists h. reflexivity.
  - simpl in Hnd. apply List.NoDup_cons_iff in Hnd as [Hk' Hnd].
    assert (incl l' l) as Hincl'
      by (intros x Hx; apply Hincl; right; exact Hx).
    destruct (name_tidy h k' w Ecl Ecs Hcache
                (Hincl _ (or_introl eq_refl)))
      as (h1 & Hname & _ & Ecl1 & Ecs1 & Hcache1 & _).
    destruct (IH h1 Hincl' Hnd Ecl1 Ecs1 Hcache1) as [IH1 IH2].
    simpl map. cbn [Enum.find_name]. rewrite Hname. split.
    + intros v [E|Hin].
      * inversion E; subst. rewrite bool_decide_eq_true_2 by reflexivity.
        eauto.
      * rewrite bool_decide_eq_false_2; [auto|].
        intros E. inversion E; subst. apply Hk'.
        apply (in_map fst _ _ Hin).
    + intros Hn. rewrite bool_decide_eq_false_2.
      * apply IH2. intros Hin. apply Hn. right. exact Hin.
      * intros E. inversion E; subst. apply Hn. left. reflexivity.
Qed.

End Tidy.

End EnumMore.

(** X6. The counter that hands out ordinals is kept under the source text
    of the class: after a variant of a class has been constructed, the next
    variant of that class, or of any class declared by the same text, gets
    the next ordinal, while a variant of a class of another text gets the
    ordinal it would have got before; and the construction binds nothing
    and raises no closed flag. *)
Theorem enum_ordinals_sequential {C : Type} `{Countable C}
    {T : Enum.ClassTable C} {F : Type} (h h' : Enum.Heap C F) cls f v :
  Enum.new cls f h = Ok (v, h') ->
  (forall c g,
      Enum.class_text c = Enum.class_text cls ->
      exists h'',
        Enum.new c g h'
        = Ok ({| Enum.constructor := c;
                 Enum.ord_field := Enum.ord_field v + 1;
                 Enum.fields := g |}, h''))
  /\ (forall c g w h1,
        Enum.class_text c <> Enum.class_text cls ->
        Enum.new c g h = Ok (w, h1) ->
        exists h2, Enum.new c g h' = Ok (w, h2))
  /\ (forall c, Enum.values_of h' c = Enum.values_of h c)
  /\ (forall c, Enum.is_closed h' c = Enum.is_closed h c).
Proof.
  intros E.
  assert (forall c, Enum.is_closed h' c = Enum.is_closed h c) as Hcl
    by (intros c; eapply is_closed_new; exact E).
  assert (Enum.is_closed h cls = false) as Hc
    by (unfold Enum.new in E; destruct (Enum.is_closed h cls);
        [discriminate|reflexivity]).
  split; [|split; [|split]].
  - intros c g Et. eexists. unfold Enum.new.
    rewrite Hcl, (is_closed_same_text h c cls Et), Hc.
    rewrite (values_lookup_new _ _ _ _ _ _ E).
    rewrite decide_True by congruence. reflexivity.
  - intros c g w h1 Et Ew. unfold Enum.new in Ew.
    destruct (Enum.is_closed h c) eqn:Ec; [discriminate|].
    inversion Ew; subst w h1. eexists. unfold Enum.new.
    rewrite Hcl, Ec, (values_lookup_new _ _ _ _ _ _ E).
    rewrite decide_False by congruence. reflexivity.
  - intros c. unfold Enum.new in E. rewrite Hc in E.
    inversion E; subst. reflexivity.
  - exact Hcl.
Qed.

Lemma enum_ordinals_sequential_witness :
  exists h',
    Enum.new TwinA tt Enum.empty_heap
    = Ok ({| Enum.constructor := TwinA; Enum.ord_field := 0;
             Enum.fields := tt |}, h')
    /\ (exists h'', Enum.new TwinB tt h'
                    = Ok ({| Enum.constructor := TwinB; Enum.ord_field := 1;
                             Enum.fields := tt |}, h''))
    /\ (exists h2, Enum.new Base tt h'
                   = Ok ({| Enum.constructor := Base; Enum.ord_field := 0;
                            Enum.fields := tt |}, h2)).
Proof.
  destruct (Enum.new TwinA tt (@Enum.empty_heap sample _ _ unit))
    as [[v h']|e] eqn:E; [|vm_compute in E; discriminate].
  assert (v = {| Enum.constructor := TwinA; Enum.ord_field := 0;
                 Enum.fields := tt |}) as Hv
    by (vm_compute in E; inversion E; reflexivity).
  destruct (enum_ordinals_sequential _ _ _ _ _ E) as (Hnext & Hother & _).
  exists h'. subst v. split; [reflexivity|]. split.
  - exact (Hnext TwinB tt eq_refl).
  - destruct (Enum.new Base tt (@Enum.empty_heap sample _ _ unit))
      as [[w h1]|e] eqn:G; [|vm_compute in G; discriminate].
    destruct (Hother Base tt w h1) as (h2 & Hg); [discriminate|exact G|].
    exists h2. rewrite Hg. f_equal. f_equal.
    vm_compute in G. inversion G; reflexivity.
Defined.

(** X7. In a class whose closed flag is up and whose static properties
    hold instances of that very class, with pairwise different keys and
    ordinals and with no other name cached than their key, [name()] of the
    instance bound to a key returns that key, a second call answers the
    same from the cache, and [fromName] of the key returns that instance;
    [fromName] of a string that is no key returns [undefined]. *)
Theorem enum_name_round_trip {C : Type} `{Countable C}
    {T : Enum.ClassTable C} {F : Type} (h : Enum.Heap C F) cls l :
  Enum.is_closed h cls = true ->
  Enum.props h cls = bindings l ->
  List.Forall (fun kv => Enum.constructor (snd kv) = cls) l ->
  List.NoDup (map fst l) ->
  List.NoDup (map (fun kv => Enum.ord_field (snd kv)) l) ->
  cached_right h l ->
  (forall k v,
      In (k, v) l ->
      exists h1 h2,
        Enum.name h v = (Ok (Some k), h1)
        /\ Enum.name h1 v = (Ok (Some k), h1)
        /\ Enum.fromName h cls k = (Ok (Some v), h2))
  /\ (forall n,
      ~ In n (map fst l) ->
      exists h2, Enum.fromName h cls n = (Ok None, h2)).
Proof.
  intros Hc Hp Hd Hk Ho Hcache. split.
  - intros k v Hin.
    destruct (name_tidy h cls l Hc Hp Hd Ho h k v eq_refl eq_refl Hcache Hin)
      as (h1 & Hname & _ & Ecl & Ecs & Hcache1 & Hn).
    destruct (proj1 (find_name_tidy h cls l Hc Hp Hd Ho k l h
                       (incl_refl _) Hk eq_refl eq_refl Hcache) v Hin)
      as (h2 & Hf).
    exists h1, h2. split; [exact Hname|]. split.
    + unfold Enum.name.
      rewrite (bound_direct cls l Hd k v Hin) at 1.
      rewrite (is_closed_same h h1 cls Ecl), Hc. cbn [negb].
      rewrite Hn. reflexivity.
    + unfold Enum.fromName.
      rewrite (values_of_tidy h cls l Hp Hd h eq_refl). exact Hf.
  - intros n Hn. unfold Enum.fromName.
    rewrite (values_of_tidy h cls l Hp Hd h eq_refl).
    apply (find_name_tidy h cls l Hc Hp Hd Ho n l h
             (incl_refl _) Hk eq_refl eq_refl Hcache). exact Hn.
Qed.

(** *** The command types, once loaded *)

Lemma loaded_closed :
  Enum.is_closed CommandType.loaded CommandType.cls = true.
Proof. vm_compute. reflexivity. Qed.

Lemma loaded_props :
  Enum.props CommandType.loaded CommandType.cls = bindings loaded_bindings.
Proof. vm_compute. reflexivity. Qed.

Lemma loaded_direct :
  List.Forall (fun kv => Enum.constructor (snd kv) = CommandType.cls)
    loaded_bindings.
Proof. apply List.Forall_forall. intros [k [[] n f]] _. reflexivity. Qed.

Lemma loaded_keys : List.NoDup (map fst loaded_bindings).
Proof.
  vm_compute. repeat (constructor; [simpl; intuition discriminate|]).
  constructor.
Qed.

Lemma loaded_ordinals :
  List.NoDup (map (fun kv => Enum.ord_field (snd kv)) loaded_bindings).
Proof.
  vm_compute. repeat (constructor; [simpl; intuition discriminate|]).
  constructor.
Qed.

Lemma loaded_names : Enum.names CommandType.loaded = ∅.
Proof. vm_compute. reflexivity. Qed.

Lemma loaded_cached : cached_right CommandType.loaded loaded_bindings.
Proof. intros k v _. left. rewrite loaded_names. apply lookup_empty. Qed.

Lemma loaded_settled : settled CommandType.loaded.
Proof.
  split; [reflexivity|]. split; [reflexivity|]. split; [reflexivity|].
  exact loaded_cached.
Qed.

Lemma loaded_key k v :
  In (k, v) loaded_bindings ->
  Enum.get_static CommandType.loaded CommandType.cls k = Some v
  /\ In k ["ORIGIN"; "RUN"; "COPY"; "WORKDIR"; "ENTRYPOINT"]%string.
Proof.
  intros Hin. vm_compute in Hin.
  destruct Hin as [E|[E|[E|[E|[E|[]]]]]]; inversion E; subst k v;
    (split; [vm_compute; reflexivity|simpl; tauto]).
Qed.

Lemma enum_name_round_trip_witness :
  exists v h1 h2 h3,
    CommandType.RUN = Some v
    /\ Enum.name CommandType.loaded v = (Ok (Some "RUN"%string), h1)
    /\ Enum.name h1 v = (Ok (Some "RUN"%string), h1)
    /\ Enum.fromName CommandType.loaded CommandType.cls "RUN"
       = (Ok (Some v), h2)
    /\ Enum.fromName CommandType.loaded CommandType.cls "run"
       = (Ok None, h3).
Proof.
  destruct (enum_name_round_trip CommandType.loaded CommandType.cls
              loaded_bindings loaded_closed loaded_props loaded_direct
              loaded_keys loaded_ordinals loaded_cached) as [Hkey Hnone].
  destruct CommandType.RUN as [v|] eqn:E; [|vm_compute in E; discriminate].
  assert (In ("RUN"%string, v) loaded_bindings) as Hin
    by (vm_compute in E; inversion E; vm_compute; auto).
  destruct (Hkey "RUN"%string v Hin) as (h1 & h2 & H1 & H2 & H3).
  destruct (Hnone "run"%string) as (h3 & H4).
  { vm_compute. intuition discriminate. }
  exists v, h1, h2, h3. auto.
Defined.

(** Without the condition on the cached names the round trip fails: of two
    classes declared by one text, closing the one lets [name()] cache the
    key of a variant of the other while that one can still be assigned to;
    once the variant is bound under another key and its class closed,
    [name()] answers the old key and [fromName] of the new one finds
    nothing. *)
Lemma stale_name :
  let v := {| Enum.constructor := TwinB; Enum.ord_field := 0;
              Enum.fields := tt |} in
  Enum.is_closed rebound_twin TwinB = true
  /\ Enum.frozen (Enum.class_of rebound_twin TwinB) = true
  /\ Enum.props rebound_twin TwinB
     = [("X"%string, None); ("Y"%string, Some v)]
  /\ fst (Enum.name rebound_twin v) = Ok (Some "X"%string)
  /\ fst (Enum.fromName rebound_twin TwinB "Y") = Ok None.
Proof. repeat split; vm_compute; reflexivity. Qed.

(** *** What closing seals *)

Section EnumSeal.
Context {C : Type} `{Countable C} {T : Enum.ClassTable C} {F : Type}.
Implicit Types (h : Enum.Heap C F) (v : Enum.Instance C F).

Lemma class_of_close_same h cls :
  Enum.class_of (Enum.close cls h) cls
  = {| Enum.own := Enum.own (Enum.class_of h cls); Enum.frozen := true |}.
Proof.
  unfold Enum.class_of at 1, Enum.close. cbn [Enum.classes].
  rewrite lookup_insert_eq. reflexivity.
Qed.

Lemma class_of_close_other h cls c :
  c <> cls -> Enum.class_of (Enum.close cls h) c = Enum.class_of h c.
Proof.
  intros Hne. unfold Enum.class_of, Enum.close. cbn [Enum.classes].
  rewrite lookup_insert_ne by congruence. reflexivity.
Qed.

Lemma own_close h cls c :
  Enum.own (Enum.class_of (Enum.close cls h) c)
  = Enum.own (Enum.class_of h c).
Proof.
  destruct (decide (c = cls)) as [->|Hne].
  - rewrite class_of_close_same. reflexivity.
  - rewrite class_of_close_other by assumption. reflexivity.
Qed.

Lemma has_own_close h cls c key :
  Enum.has_own (Enum.close cls h) c key = Enum.has_own h c key.
Proof. unfold Enum.has_own. rewrite own_close. reflexivity. Qed.

Lemma writable_close h cls key :
  Enum.writable (Enum.close cls h) cls key = false.
Proof.
  unfold Enum.writable. rewrite class_of_close_same. cbn [Enum.frozen negb].
  destruct (Enum.has_own (Enum.close cls h) cls key); [reflexivity|].
  destruct (List.find _ _); [apply andb_false_r|reflexivity].
Qed.

Lemma find_ext {A : Type} (p q : A -> bool) (l : list A) :
  (forall x, In x l -> p x = q x) -> List.find p l = List.find q l.
Proof.
  induction l as [|x l IH]; intros Hpq; [reflexivity|].
  simpl. rewrite (Hpq x) by (left; reflexivity).
  destruct (q x); [reflexivity|]. apply IH.
  intros y Hy. apply Hpq. right. exact Hy.
Qed.

Lemma find_In {A : Type} (p : A -> bool) (l : list A) x :
  List.find p l = Some x -> In x l.
Proof. intros E. apply List.find_some in E. tauto. Qed.

(** Closing a class changes nothing for the assignments to a class that
    neither is it nor extends it. *)
Lemma writable_close_other h cls c key :
  c <> cls -> ~ In cls (Enum.class_ancestors c) ->
  Enum.writable (Enum.close cls h) c key = Enum.writable h c key.
Proof.
  intros Hne Hanc. unfold Enum.writable.
  rewrite has_own_close, (class_of_close_other h cls c Hne).
  rewrite (find_ext (fun c0 => Enum.has_own (Enum.close cls h) c0 key)
             (fun c0 => Enum.has_own h c0 key))
    by (intros; apply has_own_close).
  destruct (List.find _ _) as [c'|] eqn:E; [|reflexivity].
  rewrite class_of_close_other; [reflexivity|].
  intros ->. apply Hanc. exact (find_In _ _ _ E).
Qed.

Lemma store_close_other h cls c key val :
  c <> cls ->
  Enum.store c key val (Enum.close cls h)
  = Enum.close cls (Enum.store c key val h).
Proof.
  intros Hne. unfold Enum.store.
  rewrite (class_of_close_other h cls c Hne).
  unfold Enum.close. cbn [Enum.values Enum.closed Enum.classes Enum.names].
  f_equal.
  assert (Enum.class_of
            {| Enum.values := Enum.values h; Enum.closed := Enum.closed h;
               Enum.classes :=
                 <[c := {| Enum.own :=
                             Enum.put key val (Enum.own (Enum.class_of h c));
                           Enum.frozen := Enum.frozen (Enum.class_of h c) |}]>
                   (Enum.classes h);
               Enum.names := Enum.names h |} cls
          = Enum.class_of h cls) as ->.
  { unfold Enum.class_of. cbn [Enum.classes].
    rewrite lookup_insert_ne by congruence. reflexivity. }
  apply insert_insert_ne. congruence.
Qed.

Lemma close_close h cls :
  Enum.close cls (Enum.close cls h) = Enum.close cls h.
Proof.
  unfold Enum.close at 1.
  rewrite class_of_close_same. cbn [Enum.own].
  unfold Enum.close. cbn [Enum.values Enum.closed Enum.classes Enum.names].
  rewrite !insert_insert_eq. reflexivity.
Qed.

Lemma values_of_close h cls c :
  Enum.values_of (Enum.close cls h) c = Enum.values_of h c.
Proof. unfold Enum.values_of, Enum.props. rewrite own_close. reflexivity. Qed.

End EnumSeal.

(** X8. Right after [close()] on a class, an assignment to a static
    property of the class that the class does not have by declaration
    stores nothing: it is ignored in sloppy-mode code and throws a
    [TypeError] in strict-mode code. Closing leaves what [values()] lists as
    it was, for every class, lets [ord()] answer for the variants of the
    class and of the classes of the same text, and is idempotent. The
    closed flag of a class of another text is as before; and a class that
    neither is the closed one nor extends it, be it of the same text, is
    not frozen by the closing: an assignment to it does what it did
    before. *)
Theorem enum_close_seals {C : Type} `{Countable C}
    {T : Enum.ClassTable C} {F : Type} (h : Enum.Heap C F) (cls : C) :
  (forall key v,
      Enum.declared cls key = false ->
      Enum.set_static cls key v (Enum.close cls h) = Enum.close cls h)
  /\ (forall key val,
      Enum.declared cls key = false ->
      Enum.assign_strict cls key val (Enum.close cls h) = Enum.TypeError)
  /\ (forall c, Enum.values_of (Enum.close cls h) c = Enum.values_of h c)
  /\ (forall v : Enum.Instance C F,
      Enum.class_text (Enum.constructor v) = Enum.class_text cls ->
      Enum.ord (Enum.close cls h) v = Ok (Enum.ord_field v))
  /\ Enum.close cls (Enum.close cls h) = Enum.close cls h
  /\ (forall c,
      Enum.class_text c <> Enum.class_text cls ->
      Enum.is_closed (Enum.close cls h) c = Enum.is_closed h c)
  /\ (forall c key v,
      c <> cls -> ~ In cls (Enum.class_ancestors c) ->
      Enum.declared c key = false ->
      Enum.class_of (Enum.close cls h) c = Enum.class_of h c
      /\ Enum.set_static c key v (Enum.close cls h)
         = Enum.close cls (Enum.set_static c key v h)).
Proof.
  split; [|split; [|split; [|split; [|split; [|split]]]]].
  - intros key v _. unfold Enum.set_static.
    rewrite writable_close. reflexivity.
  - intros key val _. unfold Enum.assign_strict.
    rewrite writable_close. reflexivity.
  - intros c. apply values_of_close.
  - intros v E. apply ord_closed.
    rewrite is_closed_close, bool_decide_eq_true_2 by assumption.
    reflexivity.
  - apply close_close.
  - intros c Hne. rewrite is_closed_close.
    rewrite bool_decide_eq_false_2 by assumption. reflexivity.
  - intros c key v Hne Hanc _. split.
    + apply class_of_close_other. exact Hne.
    + unfold Enum.set_static.
      rewrite (writable_close_other h cls c key Hne Hanc).
      destruct (Enum.writable h c key); [|reflexivity].
      apply store_close_other. exact Hne.
Qed.

Lemma enum_close_seals_witness :
  let v := {| Enum.constructor := "E"%string; Enum.ord_field := 0;
              Enum.fields := tt |} in
  let w := {| Enum.constructor := TwinB; Enum.ord_field := 0;
              Enum.fields := tt |} in
  let closed_twin := Enum.close TwinA (@Enum.empty_heap sample _ _ unit) in
  Enum.set_static "E" "B" v (Enum.close "E" half_built)
  = Enum.close "E" half_built
  /\ Enum.assign_strict "E" "B" (Some v) (Enum.close "E" half_built)
     = Enum.TypeError
  /\ Enum.values_of (Enum.close "E" half_built) "E" = [v]
  /\ Enum.ord (Enum.close "E" half_built) v = Ok 0
  /\ Enum.is_closed closed_twin TwinB = true
  /\ Enum.is_closed closed_twin Base = false
  /\ Enum.set_static TwinB "X" w closed_twin
     = Enum.close TwinA (Enum.set_static TwinB "X" w Enum.empty_heap)
  /\ Enum.values_of (Enum.set_static TwinB "X" w closed_twin) TwinB = [w].
Proof.
  intros v w closed_twin. subst closed_twin.
  destruct (enum_close_seals half_built "E"%string)
    as (G1 & G2 & G3 & G4 & _).
  destruct (enum_close_seals (@Enum.empty_heap sample _ _ unit) TwinA)
    as (_ & _ & _ & _ & _ & G6 & G7).
  split; [exact (G1 "B"%string v eq_refl)|].
  split; [exact (G2 "B"%string (Some v) eq_refl)|].
  split; [rewrite G3; reflexivity|].
  split; [exact (G4 v eq_refl)|].
  split; [reflexivity|].
  split; [rewrite (G6 Base); [reflexivity|discriminate]|].
  assert (Enum.set_static TwinB "X" w (Enum.close TwinA Enum.empty_heap)
          = Enum.close TwinA (Enum.set_static TwinB "X" w Enum.empty_heap))
    as E.
  { refine (proj2 (G7 TwinB "X"%string w _ _ eq_refl)); [discriminate|].
    simpl. tauto. }
  split; [exact E|]. rewrite E. reflexivity.
Defined.

(** ** Printing a command *)

(** X11. [toString()] of a command of one of the five kinds never throws and
    gives the name under which the kind is bound on [CommandType], a space,
    and the value: the symbolic name ORIGIN, RUN, COPY, WORKDIR or
    ENTRYPOINT, whatever token the document used. This holds right after the
    module is loaded and after any number of calls, each of which leaves at
    most the name it found cached on the kind. *)
Theorem toString_symbolic_name :
  settled CommandType.loaded
  /\ forall h c,
      settled h ->
      In (type c) (Enum.values_of CommandType.loaded CommandType.cls) ->
      exists k h',
        Enum.get_static CommandType.loaded CommandType.cls k = Some (type c)
        /\ In k ["ORIGIN"; "RUN"; "COPY"; "WORKDIR"; "ENTRYPOINT"]%string
        /\ Command_toString h c = (Ok (of_string k ++ SPACE :: value c), h')
        /\ settled h'.
Proof.
  split; [exact loaded_settled|].
  intros h c (Ev & Ecl & Ecs & Hcache) Hin.
  rewrite (values_of_tidy CommandType.loaded CommandType.cls loaded_bindings
             loaded_props loaded_direct CommandType.loaded eq_refl) in Hin.
  apply in_map_iff in Hin as ([k v] & Hv & Hin). simpl in Hv. subst v.
  destruct (name_tidy CommandType.loaded CommandType.cls loaded_bindings
              loaded_closed loaded_props loaded_direct loaded_ordinals
              h k (type c) Ecl Ecs Hcache Hin)
    as (h' & Hname & Ev' & Ecl' & Ecs' & Hcache' & _).
  destruct (loaded_key k (type c) Hin) as [Hget Hk].
  exists k, h'. split; [exact Hget|]. split; [exact Hk|]. split.
  - unfold Command_toString. rewrite Hname. reflexivity.
  - split; [congruence|]. split; [exact Ecl'|]. split; [exact Ecs'|].
    exact Hcache'.
Qed.

Lemma toString_symbolic_name_witness :
  exists c h1 h2,
    Parser.parse (js "FROM a\nEXEC ls -l\n") = Some (Ok [from_a; c])
    /\ Command_toString CommandType.loaded c = (Ok (js "RUN ls -l"), h1)
    /\ Command_toString h1 c = (Ok (js "RUN ls -l"), h2).
Proof.
  destruct (Parser.parse (js "FROM a\nEXEC ls -l\n"))
    as [[[|c1 [|c [|c3 r]]]|e]|] eqn:E;
    try (vm_compute in E; discriminate).
  assert (c1 = from_a) as -> by (vm_compute in E; inversion E; reflexivity).
  assert (In (type c) (Enum.values_of CommandType.loaded CommandType.cls))
    as Hin
    by (vm_compute in E; inversion E; subst; vm_compute; auto).
  destruct toString_symbolic_name as [H0 Hall].
  destruct (Hall CommandType.loaded c H0 Hin)
    as (k & h1 & Hk & Hnames & H1 & Hs1).
  destruct (Hall h1 c Hs1 Hin) as (k2 & h2 & Hk2 & Hnames2 & H2 & _).
  exists c, h1, h2. split; [reflexivity|].
  rewrite H1, H2. clear H1 H2 Hall.
  vm_compute in E. inversion E; subst c. clear E.
  destruct Hnames as [<-|[<-|[<-|[<-|[<-|[]]]]]];
    vm_compute in Hk; try discriminate;
    destruct Hnames2 as [<-|[<-|[<-|[<-|[<-|[]]]]]];
    vm_compute in Hk2; try discriminate.
  split; reflexivity.
Defined.
